(** * German hyphenation utility (src/utils/hyphenation.ts)

    A shallow embedding of [findSyllableBoundaries], [hyphenateWord] and
    [hyphenateText], with the three module-level tables ([PREFIXES],
    [SUFFIXES], [INSEPARABLE_CLUSTERS]) kept as an explicit store, because the
    source sorts them in place ([Array.prototype.sort]) while it runs.

    A JavaScript string is a sequence of UTF-16 code units: [str] is a list
    of code units, a JavaScript number used as an index or a length is a [Z]. *)

From Stdlib Require Import List ZArith NArith Lia Bool String Ascii.
From Stdlib Require Import Permutation Sorted.
Import ListNotations.
Local Open Scope Z_scope.

Definition char := N.
Definition str := list char.

(** ** The JavaScript built-ins the module uses *)
Module JS.

(** Source text of this file is UTF-8; a literal is decoded to its UTF-16
    code units (one- and two-byte sequences, which cover every literal of the
    module). *)
Fixpoint lit (s : string) : str :=
  match s with
  | EmptyString => []
  | String a r =>
      let b := N_of_ascii a in
      if (b <? 192)%N then b :: lit r
      else match r with
           | String a2 r2 => ((b - 192) * 64 + (N_of_ascii a2 - 128))%N :: lit r2
           | EmptyString => [b]
           end
  end.

(** [s.length] *)
Definition len (s : str) : Z := Z.of_nat (List.length s).

(** [s[i]]: [None] stands for [undefined]. *)
Definition at_ (s : str) (i : Z) : option char :=
  if i <? 0 then None else nth_error s (Z.to_nat i).

(** [s.slice(start, end)] with the relative (negative) indices of the
    language. *)
Definition slice (s : str) (start end_ : Z) : str :=
  let n := len s in
  let from := if start <? 0 then Z.max (n + start) 0 else Z.min start n in
  let to := if end_ <? 0 then Z.max (n + end_) 0 else Z.min end_ n in
  firstn (Z.to_nat (to - from)) (skipn (Z.to_nat from) s).

(** [s.slice(start)] *)
Definition sliceFrom (s : str) (start : Z) : str := slice s start (len s).

Definition char_eqb (a b : char) : bool := N.eqb a b.

Fixpoint str_eqb (a b : str) : bool :=
  match a, b with
  | [], [] => true
  | x :: a', y :: b' => char_eqb x y && str_eqb a' b'
  | _, _ => false
  end.

(** [s.startsWith(p)] *)
Fixpoint startsWith (s p : str) : bool :=
  match p with
  | [] => true
  | c :: p' => match s with
               | [] => false
               | d :: s' => char_eqb d c && startsWith s' p'
               end
  end.

(** [s.endsWith(p)] *)
Definition endsWith (s p : str) : bool :=
  (len p <=? len s) && str_eqb (sliceFrom s (len s - len p)) p.

(** [s.includes(p)] on strings: [p] occurs in [s]. *)
Fixpoint includes (s p : str) : bool :=
  startsWith s p ||
  match s with
  | [] => false
  | _ :: s' => includes s' p
  end.

(** [a.includes(x)] on an array of numbers *)
Definition arr_includes (a : list Z) (x : Z) : bool := existsb (Z.eqb x) a.

(** [a.length] on an array *)
Definition arr_length {A : Type} (a : list A) : Z := Z.of_nat (List.length a).

(** [a.push(x)] *)
Definition push (a : list Z) (x : Z) : list Z := a ++ [x].

(** [a.sort(cmp)]: the sort of the language is stable, so with a consistent
    comparator its result is the stable sorted arrangement, here computed by
    insertion from the right. *)
Fixpoint insertBy {A : Type} (cmp : A -> A -> Z) (x : A) (l : list A) : list A :=
  match l with
  | [] => [x]
  | y :: l' => if cmp x y <=? 0 then x :: l else y :: insertBy cmp x l'
  end.

Definition sort {A : Type} (cmp : A -> A -> Z) (l : list A) : list A :=
  fold_right (insertBy cmp) [] l.

(** [s.toLowerCase()] on the Latin-1 letters; the module lower-cases only
    words that passed the German-alphabet test of [hyphenateWord]. *)
Definition lowerChar (c : char) : char :=
  if ((65 <=? c) && (c <=? 90))%N then (c + 32)%N
  else if ((192 <=? c) && (c <=? 222) && negb (c =? 215))%N then (c + 32)%N
  else c.

Definition toLowerCase (s : str) : str := map lowerChar s.

(** The class [\s] of regular expressions. *)
Definition isWhitespace (c : char) : bool :=
  ((9 <=? c) && (c <=? 13) || (c =? 32) || (c =? 160) || (c =? 5760)
   || (8192 <=? c) && (c <=? 8202) || (c =? 8232) || (c =? 8233)
   || (c =? 8239) || (c =? 8287) || (c =? 12288) || (c =? 65279))%N.

(** [text.split(/(\s+)/)]: the pieces between the maximal whitespace runs,
    with the runs themselves (the capture group) in between. The list starts
    and ends with a piece that is not a run, possibly the empty string.
    [acc] holds the current piece in reverse, [inWs] tells whether it is a
    whitespace run. *)
Fixpoint splitGo (inWs : bool) (acc : str) (s : str) : list str :=
  match s with
  | [] => if inWs then [rev acc; []] else [rev acc]
  | c :: r =>
      if isWhitespace c then
        if inWs then splitGo true (c :: acc) r
        else rev acc :: splitGo true [c] r
      else
        if inWs then rev acc :: splitGo false [c] r
        else splitGo false (c :: acc) r
  end.

Definition splitWs (text : str) : list str := splitGo false [] text.

(** [parts.join('')] *)
Definition join (parts : list str) : str := List.concat parts.

End JS.

Import JS.

(** ** Module-level constants *)

(** The three arrays are shared and mutable: [sort] rearranges them in
    place. *)
Record Tables := mkTables {
  PREFIXES : list str;
  SUFFIXES : list str;
  INSEPARABLE_CLUSTERS : list str
}.

Definition PREFIXES0 : list str := map lit
  ["über"; "unter"; "hinter"; "zwischen"; "durch"; "wider";
   "ge"; "be"; "ver"; "zer"; "ent"; "emp"; "er"; "miss"; "un";
   "vor"; "nach"; "aus"; "ein"; "auf"; "ab"; "an"; "bei";
   "mit"; "zu"; "hin"; "her"; "um"; "herum"; "hinaus"; "heraus"]%string.

Definition SUFFIXES0 : list str := map lit
  ["schaft"; "heit"; "keit"; "ung"; "lich"; "isch"; "chen"; "lein";
   "bar"; "sam"; "haft"; "los"; "voll"; "reich"; "arm"; "wert";
   "weise"; "artig"; "mäßig"; "tum"; "nis"; "sal"; "sel";
   "tion"; "sion"; "ieren"; "ismus"; "ist"; "ität"]%string.

Definition INSEPARABLE_CLUSTERS0 : list str := map lit
  ["sch"; "ch"; "ck"; "ph"; "th"; "qu"; "pf"; "st"; "sp";
   "bl"; "br"; "cl"; "cr"; "dr"; "fl"; "fr"; "gl"; "gr";
   "kl"; "kn"; "kr"; "pl"; "pr"; "tr"; "schl"; "schn";
   "schm"; "schr"; "schw"; "spr"; "str"]%string.

(** The store when the module has just been loaded. *)
Definition initialTables : Tables :=
  mkTables PREFIXES0 SUFFIXES0 INSEPARABLE_CLUSTERS0.

Definition VOWELS : str := lit "aeiouäöüyAEIOUÄÖÜY".

Definition SOFT_HYPHEN : char := 173%N.

Definition HYPHEN_MINUS : char := 45%N.

(** ** Computations over the store *)

Definition State (A : Type) : Type := Tables -> A * Tables.

Definition ret {A : Type} (a : A) : State A := fun t => (a, t).

Definition bind {A B : Type} (m : State A) (k : A -> State B) : State B :=
  fun t => let (a, t') := m t in k a t'.

Notation "x <- m ;; k" := (bind m (fun x => k))
  (at level 61, m at next level, right associativity).

(** [(a, b) => b.length - a.length] *)
Definition byLengthDesc (a b : str) : Z := len b - len a.

(** [(a, b) => a - b] *)
Definition ascending (a b : Z) : Z := a - b.

(** [PREFIXES.sort(...)] returns the array it has just sorted in place. *)
Definition sortPrefixes : State (list str) := fun t =>
  let p := sort byLengthDesc (PREFIXES t) in
  (p, mkTables p (SUFFIXES t) (INSEPARABLE_CLUSTERS t)).

Definition sortSuffixes : State (list str) := fun t =>
  let s := sort byLengthDesc (SUFFIXES t) in
  (s, mkTables (PREFIXES t) s (INSEPARABLE_CLUSTERS t)).

Definition sortClusters : State (list str) := fun t =>
  let c := sort byLengthDesc (INSEPARABLE_CLUSTERS t) in
  (c, mkTables (PREFIXES t) (SUFFIXES t) c).

(** Reading [INSEPARABLE_CLUSTERS] without sorting it. *)
Definition readClusters : State (list str) := fun t =>
  (INSEPARABLE_CLUSTERS t, t).

Fixpoint foldM {A B : Type} (f : B -> A -> State B) (l : list A) (b : B)
  : State B :=
  match l with
  | [] => ret b
  | x :: l' => b' <- f b x ;; foldM f l' b'
  end.

(** The indices of [for (let i = a; i < b; i++)]. *)
Definition range (a b : Z) : list Z :=
  map (fun k => a + Z.of_nat k) (seq 0 (Z.to_nat (b - a))).

(** ** Character classes *)

(** [VOWELS.includes(char)]; on [undefined] the search is for the text
    "undefined", which [VOWELS] does not contain. *)
Definition isVowel (ch : option char) : bool :=
  match ch with
  | Some c => existsb (char_eqb c) VOWELS
  | None => false
  end.

(** [/[a-zäöüß]/i] on one code unit: case is ignored, so the capitals of the
    class match as well. *)
Definition isLetterIgnoreCase (c : char) : bool :=
  ((97 <=? c) && (c <=? 122) || (65 <=? c) && (c <=? 90)
   || (c =? 228) || (c =? 246) || (c =? 252)
   || (c =? 196) || (c =? 214) || (c =? 220) || (c =? 223))%N.

(** On [undefined] the expression is tested against the text "undefined",
    which has letters. *)
Definition isConsonant (ch : option char) : bool :=
  match ch with
  | Some c => isLetterIgnoreCase c && negb (isVowel ch)
  | None => true && negb (isVowel ch)
  end.

(** Truthiness of [s[i]]: a code unit is a non-empty string. *)
Definition truthy (ch : option char) : bool :=
  match ch with Some _ => true | None => false end.

Definition ochar_eqb (a b : option char) : bool :=
  match a, b with
  | Some x, Some y => char_eqb x y
  | None, None => true
  | _, _ => false
  end.

(** ** findSyllableBoundaries *)

(** The prefix loop: the first entry that passes both tests sets [prefixEnd],
    is pushed, and ends the loop. The result is [(prefixEnd, boundaries)]. *)
Fixpoint prefixLoop (ps : list str) (word lowerWord : str) (boundaries : list Z)
  : Z * list Z :=
  match ps with
  | [] => (0, boundaries)
  | prefix :: rest =>
      if startsWith lowerWord prefix && (len word >? len prefix + 2) then
        let afterPrefix := sliceFrom lowerWord (len prefix) in
        if (len afterPrefix >? 0)
           && (isVowel (at_ afterPrefix 0) || isConsonant (at_ afterPrefix 0))
        then (len prefix, push boundaries (len prefix))
        else prefixLoop rest word lowerWord boundaries
      else prefixLoop rest word lowerWord boundaries
  end.

(** The suffix loop; the result is [suffixStart]. *)
Fixpoint suffixLoop (ss : list str) (word lowerWord : str) : Z :=
  match ss with
  | [] => len word
  | suffix :: rest =>
      if endsWith lowerWord suffix && (len word >? len suffix + 2) then
        let beforeSuffix := slice lowerWord 0 (- len suffix) in
        if len beforeSuffix >? 0 then len word - len suffix
        else suffixLoop rest word lowerWord
      else suffixLoop rest word lowerWord
  end.

(** The loop of the V-CV rule; its result [clusterLen] is not used by the
    source. *)
Fixpoint clusterLenLoop (ics : list str) (cluster : str) : Z :=
  match ics with
  | [] => 1
  | ic :: rest =>
      if startsWith cluster ic then len ic else clusterLenLoop rest cluster
  end.

(** The loop of the consonant-consonant rule; the result is [isCluster]. *)
Fixpoint isClusterLoop (ics : list str) (testCluster : str) : bool :=
  match ics with
  | [] => false
  | ic :: rest =>
      if includes testCluster ic then true else isClusterLoop rest testCluster
  end.

(** [s.split('').some(c => isVowel(c))] *)
Definition someVowel (s : str) : bool :=
  existsb (fun c => isVowel (Some c)) s.

(** One turn of the interior loop at offset [i]. *)
Definition scanBody (lowerWord : str) (boundaries : list Z) (i : Z)
  : State (list Z) :=
  if arr_includes boundaries i then ret boundaries
  else
    let prev := at_ lowerWord (i - 1) in
    let curr := at_ lowerWord i in
    let next := at_ lowerWord (i + 1) in
    if isVowel prev && isConsonant curr && truthy next && isVowel next then
      let cluster := slice lowerWord i (i + 4) in
      ics <- sortClusters ;;
      let clusterLen := clusterLenLoop ics cluster in
      ret (if negb (arr_includes boundaries i) then push boundaries i
           else boundaries)
    else if isConsonant prev && isConsonant curr && negb (ochar_eqb prev curr)
    then
      let testCluster := slice lowerWord (i - 1) (i + 2) in
      ics <- readClusters ;;
      let isCluster := isClusterLoop ics testCluster in
      ret (if negb isCluster && negb (arr_includes boundaries i) then
             let beforeHasVowel := someVowel (slice lowerWord 0 i) in
             let afterHasVowel := someVowel (sliceFrom lowerWord i) in
             if beforeHasVowel && afterHasVowel then push boundaries i
             else boundaries
           else boundaries)
    else if isConsonant prev && ochar_eqb curr prev
            && negb (ochar_eqb prev (Some 115%N))
    then
      ret (if negb (arr_includes boundaries i) then push boundaries i
           else boundaries)
    else ret boundaries.

Definition findSyllableBoundaries (word : str) : State (list Z) :=
  let boundaries := [] in
  let lowerWord := toLowerCase word in
  if len word <? 4 then ret boundaries
  else
    ps <- sortPrefixes ;;
    let '(prefixEnd, boundaries) := prefixLoop ps word lowerWord boundaries in
    ss <- sortSuffixes ;;
    let suffixStart := suffixLoop ss word lowerWord in
    let start := prefixEnd in
    let end_ := suffixStart in
    boundaries <- foldM (scanBody lowerWord) (range (start + 1) (end_ - 1))
                        boundaries ;;
    let boundaries :=
      if (suffixStart <? len word) && negb (arr_includes boundaries suffixStart)
      then if suffixStart >? 1 then push boundaries suffixStart else boundaries
      else boundaries in
    ret (sort ascending boundaries).

(** ** hyphenateWord *)

(** [/^[a-zA-ZäöüÄÖÜß]+$/] has no flag: the class is taken as written. *)
Definition isGermanLetter (c : char) : bool :=
  ((97 <=? c) && (c <=? 122) || (65 <=? c) && (c <=? 90)
   || (c =? 228) || (c =? 246) || (c =? 252)
   || (c =? 196) || (c =? 214) || (c =? 220) || (c =? 223))%N.

Definition isAlphabetic (word : str) : bool :=
  match word with
  | [] => false
  | _ => forallb isGermanLetter word
  end.

(** One turn of the insertion loop, for [pos = boundaries[i]]. *)
Definition insertStep (result : str) (pos : Z) : str :=
  if (pos >=? 2) && (pos <=? len result - 2) then
    slice result 0 pos ++ [SOFT_HYPHEN] ++ sliceFrom result pos
  else result.

(** The loop runs over the array from its last index down to 0. *)
Definition insertLoop (word : str) (boundaries : list Z) : str :=
  fold_left insertStep (rev boundaries) word.

Definition hyphenateWord (word : str) : State str :=
  if len word <? 5 then ret word
  else if existsb (char_eqb HYPHEN_MINUS) word
          || existsb (char_eqb SOFT_HYPHEN) word then ret word
  else if negb (isAlphabetic word) then ret word
  else
    boundaries <- findSyllableBoundaries word ;;
    if arr_length boundaries =? 0 then ret word
    else ret (insertLoop word boundaries).

(** ** hyphenateText *)

(** [/^\s+$/.test(part)] *)
Definition isWhitespaceRun (part : str) : bool :=
  match part with
  | [] => false
  | _ => forallb isWhitespace part
  end.

Definition hyphenatePart (part : str) : State str :=
  if isWhitespaceRun part then ret part else hyphenateWord part.

(** [parts.map(f)], left to right. *)
Fixpoint mapM {A B : Type} (f : A -> State B) (l : list A) : State (list B) :=
  match l with
  | [] => ret []
  | x :: l' => y <- f x ;; ys <- mapM f l' ;; ret (y :: ys)
  end.

Definition hyphenateText (text : str) : State str :=
  parts <- mapM hyphenatePart (splitWs text) ;;
  ret (join parts).

(** ** Vocabulary of the statements *)

(** [x] may stand before [y] in an array sorted with [cmp]. *)
Definition before {A : Type} (cmp : A -> A -> Z) (x y : A) : Prop :=
  cmp x y <= 0.

(** All three arrays in stable longest-first order. *)
Definition sortTables (t : Tables) : Tables :=
  mkTables (sort byLengthDesc (PREFIXES t))
           (sort byLengthDesc (SUFFIXES t))
           (sort byLengthDesc (INSEPARABLE_CLUSTERS t)).

(** What running code does to one array: nothing, or the in-place sort. *)
Definition keptOrSorted (l l' : list str) : Prop :=
  l' = l \/ l' = sort byLengthDesc l.

Definition evolves (t t' : Tables) : Prop :=
  keptOrSorted (PREFIXES t) (PREFIXES t')
  /\ keptOrSorted (SUFFIXES t) (SUFFIXES t')
  /\ keptOrSorted (INSEPARABLE_CLUSTERS t) (INSEPARABLE_CLUSTERS t').

(** Two stores that differ only in how far their arrays have been sorted. *)
Definition sameView (t t' : Tables) : Prop :=
  sort byLengthDesc (PREFIXES t) = sort byLengthDesc (PREFIXES t')
  /\ sort byLengthDesc (SUFFIXES t) = sort byLengthDesc (SUFFIXES t')
  /\ sort byLengthDesc (INSEPARABLE_CLUSTERS t)
     = sort byLengthDesc (INSEPARABLE_CLUSTERS t').

(** A computation whose effect on the store is at most sorting, and whose
    value does not depend on how far the store has been sorted. *)
Definition wellBehaved {A : Type} (m : State A) : Prop :=
  (forall t, evolves t (snd (m t)))
  /\ (forall t t', sameView t t' -> fst (m t) = fst (m t')).

(** The two exported functions, as calls of a client. *)
Inductive Call : Type :=
  | CallWord (word : str)
  | CallText (text : str).

Definition runCall (c : Call) : State str :=
  match c with
  | CallWord word => hyphenateWord word
  | CallText text => hyphenateText text
  end.

(** The store after a sequence of calls. *)
Definition tablesAfter (calls : list Call) (t : Tables) : Tables :=
  fold_left (fun t c => snd (runCall c t)) calls t.

(** Removing every U+00AD. *)
Definition stripSoftHyphens (s : str) : str :=
  filter (fun c => negb (char_eqb c SOFT_HYPHEN)) s.

(** The maximal runs of other code units that the U+00AD of [s] and the two
    ends of [s] delimit; [acc] holds the current run in reverse. *)
Fixpoint runsGo (acc : str) (s : str) : list str :=
  match s with
  | [] => [rev acc]
  | c :: r =>
      if char_eqb c SOFT_HYPHEN then rev acc :: runsGo [] r
      else runsGo (c :: acc) r
  end.

Definition runs (s : str) : list str := runsGo [] s.

(** The offsets, counted in [w] from [o] on, of the U+00AD that [out] has
    in addition to the code units of [w]: [out] is read along [w], a code
    unit of [out] that is the next one of [w] belongs to [w], any other
    U+00AD is an inserted marker. *)
Fixpoint markerOffsets (out w : str) (o : Z) : list Z :=
  match out with
  | [] => []
  | c :: out' =>
      match w with
      | x :: w' =>
          if char_eqb c x then markerOffsets out' w' (o + 1)
          else if char_eqb c SOFT_HYPHEN then o :: markerOffsets out' w o
          else []
      | [] =>
          if char_eqb c SOFT_HYPHEN then o :: markerOffsets out' [] o
          else []
      end
  end.

(** A piece without whitespace. *)
Definition wordPiece (s : str) : bool :=
  forallb (fun c => negb (isWhitespace c)) s.

(** The lists that [splitWs] produces: pieces without whitespace alternate
    with whitespace runs, the list starts and ends with a piece, and only
    the first piece (flag [first]) and the last one may be empty. *)
Inductive Pieces : bool -> list str -> Prop :=
  | Pieces_last (first : bool) (w : str) :
      wordPiece w = true -> Pieces first [w]
  | Pieces_more (first : bool) (w run : str) (rest : list str) :
      wordPiece w = true ->
      first = true \/ w <> [] ->
      isWhitespaceRun run = true ->
      Pieces false rest ->
      Pieces first (w :: run :: rest).

(** [part'] is what [hyphenateText] makes of the piece [part], in some
    store. *)
Definition hyphenated (part part' : str) : Prop :=
  exists t : Tables, part' = fst (hyphenatePart part t).

(** A code unit outside the German alphabet occurs in [s]. *)
Definition hasForeign (s : str) : bool :=
  existsb (fun c => negb (isGermanLetter c)) s.

(** The three tests of the interior loop at offset [i], each with the
    conditions that make its branch push [i]. *)
Definition ruleVCV (lowerWord : str) (i : Z) : bool :=
  isVowel (at_ lowerWord (i - 1)) && isConsonant (at_ lowerWord i)
  && truthy (at_ lowerWord (i + 1)) && isVowel (at_ lowerWord (i + 1)).

Definition ruleCC (clusters : list str) (lowerWord : str) (i : Z) : bool :=
  isConsonant (at_ lowerWord (i - 1)) && isConsonant (at_ lowerWord i)
  && negb (ochar_eqb (at_ lowerWord (i - 1)) (at_ lowerWord i))
  && negb (isClusterLoop clusters (slice lowerWord (i - 1) (i + 2)))
  && someVowel (slice lowerWord 0 i) && someVowel (sliceFrom lowerWord i).

Definition ruleDoubled (lowerWord : str) (i : Z) : bool :=
  isConsonant (at_ lowerWord (i - 1))
  && ochar_eqb (at_ lowerWord i) (at_ lowerWord (i - 1))
  && negb (ochar_eqb (at_ lowerWord (i - 1)) (Some 115%N)).

Definition interiorRule (clusters : list str) (lowerWord : str) (i : Z)
  : bool :=
  ruleVCV lowerWord i || ruleCC clusters lowerWord i || ruleDoubled lowerWord i.

(** The test of the prefix loop on one entry. *)
Definition prefixTest (word lowerWord prefix : str) : bool :=
  startsWith lowerWord prefix && (len word >? len prefix + 2)
  && ((len (sliceFrom lowerWord (len prefix)) >? 0)
      && (isVowel (at_ (sliceFrom lowerWord (len prefix)) 0)
          || isConsonant (at_ (sliceFrom lowerWord (len prefix)) 0))).

(** The guards of [hyphenateWord] all let the word through. *)
Definition passesGuards (word : str) : bool :=
  negb (len word <? 5)
  && negb (existsb (char_eqb HYPHEN_MINUS) word
           || existsb (char_eqb SOFT_HYPHEN) word)
  && isAlphabetic word.

(** ** The caller: components/game/GroupDisplay.tsx *)




(** ** utils/gameLogic.ts

    The game whose solved groups [GroupDisplay] shows. Words and names are
    strings, compared by value. *)
Module GameLogic.

Inductive Difficulty : Type := easy | medium | hard | very_hard.

Record Group := mkGroup {
  name : str;
  words : list str;
  difficulty : Difficulty
}.

(** An entry of [attempts]: [{ words, correct }]. *)
Record Attempt := mkAttempt {
  attempt_words : list str;
  attempt_correct : bool
}.

(** [mistakesRemaining] is a number of the language (a double) that holds
    an integer: a game starts with [MAX_MISTAKES] and the code only
    subtracts 1. *)
Record GameState := mkGameState {
  remainingWords : list str;
  solvedGroups : list Group;
  selectedWords : list str;
  mistakesRemaining : Z;
  isComplete : bool;
  won : bool;
  attempts : list Attempt
}.

(** The double nearest to the integer [m] (53 bits of significand, ties
    to the even significand): what an integer result of the arithmetic of
    the language is stored as. Up to 2^53 in absolute value every integer
    is kept. *)
Definition roundToDouble (m : Z) : Z :=
  let a := Z.abs m in
  if a <=? 9007199254740992 then m
  else
    let e := Z.log2 a - 52 in
    let q := a / 2 ^ e in
    let r := a mod 2 ^ e in
    let half := 2 ^ (e - 1) in
    let q' :=
      if r <? half then q
      else if half <? r then q + 1
      else if Z.even q then q else q + 1 in
    Z.sgn m * (q' * 2 ^ e).

(** [a - b] on two numbers that hold integers. *)
Definition numSub (a b : Z) : Z := roundToDouble (a - b).

(** [Number.isSafeInteger(n)] on a number that holds an integer. *)
Definition isSafeInteger (n : Z) : bool :=
  (- 9007199254740991 <=? n) && (n <=? 9007199254740991).

Definition WORDS_PER_GROUP : Z := 4.

(** [a.includes(w)] on an array of strings, and [new Set(a).has(w)]. *)
Definition includesStr (a : list str) (w : str) : bool :=
  existsb (str_eqb w) a.

Definition setHas (elements : list str) (w : str) : bool :=
  includesStr elements w.





(** The loop of [checkGroup] over the groups; the result is
    [(match, isClose)], [None] standing for [null]. *)
Fixpoint checkGroupLoop (selectedWords : list str) (groups : list Group)
  : option Group * bool :=
  match groups with
  | [] => (None, false)
  | group :: rest =>
      let groupSet := words group in
      let matchCount :=
        arr_length (filter (fun w => setHas groupSet w) selectedWords) in
      if matchCount =? WORDS_PER_GROUP then (Some group, false)
      else if matchCount =? 3 then (None, true)
      else checkGroupLoop selectedWords rest
  end.

Definition checkGroup (selectedWords : list str) (groups : list Group)
  : option Group * bool :=
  if negb (arr_length selectedWords =? WORDS_PER_GROUP) then (None, false)
  else checkGroupLoop selectedWords groups.


Definition processGuess (state : GameState) (groups : list Group)
  : GameState :=
  if negb (arr_length (selectedWords state) =? WORDS_PER_GROUP) then state
  else
    let solvedGroupNames := map name (solvedGroups state) in
    let unsolvedGroups :=
      filter (fun g => negb (setHas solvedGroupNames (name g))) groups in
    let '(match_, isClose) := checkGroup (selectedWords state) unsolvedGroups in
    let newAttempts :=
      attempts state
      ++ [mkAttempt (selectedWords state)
                    (match match_ with Some _ => true | None => false end)] in
    match match_ with
    | Some m =>
        let newSolvedGroups := solvedGroups state ++ [m] in
        let newRemainingWords :=
          filter (fun w => negb (includesStr (selectedWords state) w))
                 (remainingWords state) in
        let isComplete :=
          arr_length newSolvedGroups =? arr_length groups in
        mkGameState newRemainingWords newSolvedGroups []
                    (mistakesRemaining state) isComplete isComplete newAttempts
    | None =>
        let newMistakes := numSub (mistakesRemaining state) 1 in
        let isComplete := newMistakes =? 0 in
        mkGameState (remainingWords state) (solvedGroups state)
                    (selectedWords state) newMistakes isComplete false
                    newAttempts
    end.


Definition clearSelection (state : GameState) : GameState :=
  mkGameState (remainingWords state) (solvedGroups state) []
              (mistakesRemaining state) (isComplete state) (won state)
              (attempts state).


(** The attempts recorded as wrong. *)
Definition wrongAttempts (state : GameState) : Z :=
  arr_length (filter (fun a => negb (attempt_correct a)) (attempts state)).

End GameLogic.

(** ** Facts about the built-ins *)

Section SortFacts.
Context {A : Type} (cmp : A -> A -> Z).
Hypothesis cmp_total : forall x y, cmp x y <= 0 \/ cmp y x <= 0.
Hypothesis cmp_trans :
  forall x y z, cmp x y <= 0 -> cmp y z <= 0 -> cmp x z <= 0.

Lemma insertBy_perm (x : A) (l : list A) :
  Permutation (insertBy cmp x l) (x :: l).
Proof.
  induction l as [|y l IH]; simpl; [reflexivity|].
  destruct (cmp x y <=? 0); [reflexivity|].
  rewrite IH. apply perm_swap.
Qed.

Lemma sort_perm (l : list A) : Permutation (sort cmp l) l.
Proof.
  induction l as [|x l IH]; simpl; [constructor|].
  rewrite insertBy_perm. now constructor.
Qed.

Lemma insertBy_sorted (x : A) (l : list A) :
  StronglySorted (before cmp) l ->
  StronglySorted (before cmp) (insertBy cmp x l).
Proof.
  induction 1 as [|y l Hl IH Hy]; simpl.
  - repeat constructor.
  - destruct (Z.leb_spec (cmp x y) 0) as [Hxy|Hxy].
    + constructor; [now constructor|].
      constructor; [exact Hxy|].
      eapply Forall_impl; [|exact Hy].
      intros z Hz. unfold before in *. eauto.
    + constructor; [exact IH|].
      rewrite (Forall_forall (before cmp y)). intros z Hz.
      apply (Permutation_in _ (insertBy_perm x l)) in Hz.
      destruct Hz as [<-|Hz].
      * unfold before. destruct (cmp_total x y); lia.
      * rewrite Forall_forall in Hy. now apply Hy.
Qed.

Lemma sort_sorted (l : list A) : StronglySorted (before cmp) (sort cmp l).
Proof.
  induction l as [|x l IH]; simpl; [constructor|].
  now apply insertBy_sorted.
Qed.

Lemma sort_fixed (l : list A) :
  StronglySorted (before cmp) l -> sort cmp l = l.
Proof.
  induction 1 as [|x l Hl IH Hx]; simpl; [reflexivity|].
  rewrite IH. destruct l as [|y l]; simpl; [reflexivity|].
  inversion Hx as [|? ? Hxy _]; subst. unfold before in Hxy.
  destruct (Z.leb_spec (cmp x y) 0); [reflexivity|lia].
Qed.

Lemma sort_idem (l : list A) : sort cmp (sort cmp l) = sort cmp l.
Proof. apply sort_fixed, sort_sorted. Qed.
End SortFacts.

Lemma byLengthDesc_total (x y : str) :
  byLengthDesc x y <= 0 \/ byLengthDesc y x <= 0.
Proof. unfold byLengthDesc. lia. Qed.

Lemma byLengthDesc_trans (x y z : str) :
  byLengthDesc x y <= 0 -> byLengthDesc y z <= 0 -> byLengthDesc x z <= 0.
Proof. unfold byLengthDesc. lia. Qed.

Lemma ascending_total (x y : Z) : ascending x y <= 0 \/ ascending y x <= 0.
Proof. unfold ascending. lia. Qed.

Lemma ascending_trans (x y z : Z) :
  ascending x y <= 0 -> ascending y z <= 0 -> ascending x z <= 0.
Proof. unfold ascending. lia. Qed.

Lemma sortLen_idem (l : list str) :
  sort byLengthDesc (sort byLengthDesc l) = sort byLengthDesc l.
Proof. apply sort_idem; [apply byLengthDesc_total|apply byLengthDesc_trans]. Qed.

Lemma len_nonneg (s : str) : 0 <= len s.
Proof. unfold len. lia. Qed.

Lemma len_app (a b : str) : len (a ++ b) = len a + len b.
Proof. unfold len. rewrite length_app. lia. Qed.

Lemma slice_0 (s : str) (pos : Z) :
  0 <= pos <= len s -> slice s 0 pos = firstn (Z.to_nat pos) s.
Proof.
  intros H. unfold slice. simpl.
  destruct (Z.ltb_spec pos 0); [lia|].
  rewrite (Z.min_l 0 (len s)) by apply len_nonneg.
  rewrite (Z.min_l pos (len s)) by lia.
  simpl. now rewrite Z.sub_0_r.
Qed.

Lemma sliceFrom_skipn (s : str) (pos : Z) :
  0 <= pos <= len s -> sliceFrom s pos = skipn (Z.to_nat pos) s.
Proof.
  intros H. unfold sliceFrom, slice.
  destruct (Z.ltb_spec pos 0); [lia|].
  destruct (Z.ltb_spec (len s) 0); [pose proof (len_nonneg s); lia|].
  rewrite (Z.min_l pos (len s)) by lia. rewrite Z.min_id.
  apply firstn_all2. rewrite length_skipn. unfold len in *. lia.
Qed.

Lemma slice_sliceFrom (s : str) (pos : Z) :
  0 <= pos <= len s -> slice s 0 pos ++ sliceFrom s pos = s.
Proof.
  intros H. rewrite slice_0, sliceFrom_skipn by exact H.
  apply firstn_skipn.
Qed.

(** ** The store under the calls *)

Lemma keptOrSorted_refl (l : list str) : keptOrSorted l l.
Proof. now left. Qed.

Lemma keptOrSorted_trans (l1 l2 l3 : list str) :
  keptOrSorted l1 l2 -> keptOrSorted l2 l3 -> keptOrSorted l1 l3.
Proof.
  unfold keptOrSorted. intros [->| ->] [->| ->]; auto.
  right. apply sortLen_idem.
Qed.

Lemma keptOrSorted_sort (l l' : list str) :
  keptOrSorted l l' -> sort byLengthDesc l' = sort byLengthDesc l.
Proof. intros [->| ->]; [reflexivity|apply sortLen_idem]. Qed.

Lemma evolves_refl (t : Tables) : evolves t t.
Proof. repeat split; apply keptOrSorted_refl. Qed.

Lemma evolves_trans (t1 t2 t3 : Tables) :
  evolves t1 t2 -> evolves t2 t3 -> evolves t1 t3.
Proof.
  intros (P1 & S1 & C1) (P2 & S2 & C2).
  repeat split; eapply keptOrSorted_trans; eauto.
Qed.

Lemma evolves_sameView (t t' : Tables) : evolves t t' -> sameView t t'.
Proof.
  intros (HP & HS & HC).
  repeat split; symmetry; now apply keptOrSorted_sort.
Qed.

Lemma sameView_sym (t t' : Tables) : sameView t t' -> sameView t' t.
Proof. intros (HP & HS & HC). repeat split; congruence. Qed.

Lemma sameView_trans (t1 t2 t3 : Tables) :
  sameView t1 t2 -> sameView t2 t3 -> sameView t1 t3.
Proof. intros (P1 & S1 & C1) (P2 & S2 & C2). repeat split; congruence. Qed.

Lemma wb_ret {A : Type} (a : A) : wellBehaved (ret a).
Proof. split; intros; [apply evolves_refl|reflexivity]. Qed.

Lemma wb_bind {A B : Type} (m : State A) (k : A -> State B) :
  wellBehaved m -> (forall a, wellBehaved (k a)) -> wellBehaved (bind m k).
Proof.
  intros [Hm1 Hm2] Hk. split.
  - intros t. unfold bind. specialize (Hm1 t).
    destruct (m t) as [a t1]. simpl in Hm1.
    eapply evolves_trans; [exact Hm1|]. apply (Hk a).
  - intros t t' Htt. unfold bind.
    pose proof (Hm1 t) as E1. pose proof (Hm1 t') as E2.
    specialize (Hm2 t t' Htt).
    destruct (m t) as [a t1], (m t') as [a' t1']. simpl in *. subst a'.
    apply (Hk a).
    eapply sameView_trans; [apply sameView_sym, evolves_sameView, E1|].
    eapply sameView_trans; [exact Htt|]. now apply evolves_sameView.
Qed.

Lemma wb_foldM {A B : Type} (f : B -> A -> State B) (l : list A) :
  (forall b x, wellBehaved (f b x)) -> forall b, wellBehaved (foldM f l b).
Proof.
  intros Hf. induction l as [|x l IH]; intros b; simpl.
  - apply wb_ret.
  - apply wb_bind; [apply Hf|exact IH].
Qed.

Lemma wb_mapM {A B : Type} (f : A -> State B) (l : list A) :
  (forall x, wellBehaved (f x)) -> wellBehaved (mapM f l).
Proof.
  intros Hf. induction l as [|x l IH]; simpl.
  - apply wb_ret.
  - apply wb_bind; [apply Hf|]. intros y.
    apply wb_bind; [exact IH|]. intros ys. apply wb_ret.
Qed.

Lemma wb_sortPrefixes : wellBehaved sortPrefixes.
Proof.
  split.
  - intros t. repeat split; simpl; [now right|now left|now left].
  - intros t t' (HP & _). exact HP.
Qed.

Lemma wb_sortSuffixes : wellBehaved sortSuffixes.
Proof.
  split.
  - intros t. repeat split; simpl; [now left|now right|now left].
  - intros t t' (_ & HS & _). exact HS.
Qed.

Lemma wb_sortClusters : wellBehaved sortClusters.
Proof.
  split.
  - intros t. repeat split; simpl; [now left|now left|now right].
  - intros t t' (_ & _ & HC). exact HC.
Qed.

Lemma isClusterLoop_existsb (ics : list str) (testCluster : str) :
  isClusterLoop ics testCluster = existsb (includes testCluster) ics.
Proof.
  induction ics as [|ic ics IH]; simpl; [reflexivity|].
  rewrite IH. now destruct (includes testCluster ic).
Qed.

Lemma existsb_perm {A : Type} (f : A -> bool) (l l' : list A) :
  Permutation l l' -> existsb f l = existsb f l'.
Proof.
  induction 1; simpl; try congruence.
  - now destruct (f x), (f y).
Qed.

Lemma isClusterLoop_sort (ics : list str) (testCluster : str) :
  isClusterLoop (sort byLengthDesc ics) testCluster
  = isClusterLoop ics testCluster.
Proof.
  rewrite !isClusterLoop_existsb. apply existsb_perm, sort_perm.
Qed.

Lemma wb_isCluster (testCluster : str) :
  wellBehaved (ics <- readClusters ;; ret (isClusterLoop ics testCluster)).
Proof.
  split.
  - intros t. apply evolves_refl.
  - intros t t' (_ & _ & HC). cbn.
    rewrite <- (isClusterLoop_sort (INSEPARABLE_CLUSTERS t)).
    rewrite <- (isClusterLoop_sort (INSEPARABLE_CLUSTERS t')).
    now rewrite HC.
Qed.

Ltac wb_branch :=
  match goal with
  | |- wellBehaved (if ?c then _ else _) => destruct c
  | |- wellBehaved (ret _) => apply wb_ret
  end.

Lemma wb_scanBody (lowerWord : str) (boundaries : list Z) (i : Z) :
  wellBehaved (scanBody lowerWord boundaries i).
Proof.
  unfold scanBody. wb_branch; [wb_branch|].
  wb_branch.
  { apply wb_bind; [apply wb_sortClusters|]. intros ics. apply wb_ret. }
  wb_branch.
  { split.
    - intros t. apply evolves_refl.
    - intros t t' (_ & _ & HC). cbn.
      rewrite <- (isClusterLoop_sort (INSEPARABLE_CLUSTERS t)).
      rewrite <- (isClusterLoop_sort (INSEPARABLE_CLUSTERS t')).
      now rewrite HC. }
  repeat wb_branch.
Qed.

Lemma wb_findSyllableBoundaries (word : str) :
  wellBehaved (findSyllableBoundaries word).
Proof.
  unfold findSyllableBoundaries. wb_branch; [wb_branch|].
  apply wb_bind; [apply wb_sortPrefixes|]. intros ps.
  destruct (prefixLoop ps word (toLowerCase word) []) as [prefixEnd bs].
  apply wb_bind; [apply wb_sortSuffixes|]. intros ss.
  apply wb_bind; [apply wb_foldM; intros; apply wb_scanBody|].
  intros bs'. apply wb_ret.
Qed.

Lemma wb_hyphenateWord (word : str) : wellBehaved (hyphenateWord word).
Proof.
  unfold hyphenateWord. repeat (wb_branch; [wb_branch|]).
  apply wb_bind; [apply wb_findSyllableBoundaries|].
  intros bs. repeat wb_branch.
Qed.

Lemma wb_hyphenatePart (part : str) : wellBehaved (hyphenatePart part).
Proof.
  unfold hyphenatePart. wb_branch; [wb_branch|apply wb_hyphenateWord].
Qed.

Lemma wb_hyphenateText (text : str) : wellBehaved (hyphenateText text).
Proof.
  unfold hyphenateText.
  apply wb_bind; [apply wb_mapM, wb_hyphenatePart|]. intros; apply wb_ret.
Qed.

Lemma wb_runCall (c : Call) : wellBehaved (runCall c).
Proof. destruct c; [apply wb_hyphenateWord|apply wb_hyphenateText]. Qed.

Lemma tablesAfter_evolves (calls : list Call) (t : Tables) :
  evolves t (tablesAfter calls t).
Proof.
  revert t. induction calls as [|c calls IH]; intros t; simpl.
  - apply evolves_refl.
  - eapply evolves_trans; [apply (proj1 (wb_runCall c))|apply IH].
Qed.

(** The value of a call is the same at every point of the life of the
    module. *)
Lemma value_any_time {A : Type} (m : State A) (calls : list Call) (t : Tables) :
  wellBehaved m -> fst (m (tablesAfter calls t)) = fst (m t).
Proof.
  intros [_ H]. symmetry. apply H, evolves_sameView, tablesAfter_evolves.
Qed.

Lemma evolves_sorted (t t' : Tables) :
  evolves (sortTables t) t' -> t' = sortTables t.
Proof.
  destruct t' as [P S C]. unfold evolves, keptOrSorted, sortTables. simpl.
  rewrite !sortLen_idem. intros ([->| ->] & [->| ->] & [->| ->]); reflexivity.
Qed.

(** ** The insertion loop *)

Lemma strip_app (a b : str) :
  stripSoftHyphens (a ++ b) = stripSoftHyphens a ++ stripSoftHyphens b.
Proof. apply filter_app. Qed.

Lemma insertStep_inserted (result : str) (pos : Z) :
  (pos >=? 2) && (pos <=? len result - 2) = true ->
  insertStep result pos
  = firstn (Z.to_nat pos) result ++ SOFT_HYPHEN :: skipn (Z.to_nat pos) result.
Proof.
  intros H. unfold insertStep. rewrite H.
  apply andb_prop in H. destruct H as [H1 H2].
  rewrite slice_0, sliceFrom_skipn by lia. reflexivity.
Qed.

Lemma insertStep_cases (result : str) (pos : Z) :
  insertStep result pos = result
  \/ ((pos >=? 2) && (pos <=? len result - 2) = true
      /\ insertStep result pos
         = firstn (Z.to_nat pos) result
           ++ SOFT_HYPHEN :: skipn (Z.to_nat pos) result).
Proof.
  destruct ((pos >=? 2) && (pos <=? len result - 2)) eqn:E.
  - right. split; [reflexivity|]. now apply insertStep_inserted.
  - left. unfold insertStep. now rewrite E.
Qed.

Lemma insertStep_strip (result : str) (pos : Z) :
  stripSoftHyphens (insertStep result pos) = stripSoftHyphens result.
Proof.
  destruct (insertStep_cases result pos) as [->|[_ ->]]; [reflexivity|].
  rewrite strip_app. simpl. rewrite <- strip_app. now rewrite firstn_skipn.
Qed.

Lemma insertStep_keeps_marker (result : str) (pos : Z) :
  In SOFT_HYPHEN result -> In SOFT_HYPHEN (insertStep result pos).
Proof.
  intros H. destruct (insertStep_cases result pos) as [->|[_ ->]]; [exact H|].
  apply in_or_app. right. now left.
Qed.

Lemma insertStep_same_or_marked (result : str) (pos : Z) :
  insertStep result pos = result \/ In SOFT_HYPHEN (insertStep result pos).
Proof.
  destruct (insertStep_cases result pos) as [->|[_ ->]]; [now left|].
  right. apply in_or_app. right. now left.
Qed.

Lemma fold_insertStep_strip (ps : list Z) (result : str) :
  stripSoftHyphens (fold_left insertStep ps result) = stripSoftHyphens result.
Proof.
  revert result. induction ps as [|p ps IH]; intros result; simpl.
  - reflexivity.
  - rewrite IH. apply insertStep_strip.
Qed.

Lemma fold_insertStep_keeps_marker (ps : list Z) (result : str) :
  In SOFT_HYPHEN result -> In SOFT_HYPHEN (fold_left insertStep ps result).
Proof.
  revert result. induction ps as [|p ps IH]; intros result H; simpl.
  - exact H.
  - now apply IH, insertStep_keeps_marker.
Qed.

Lemma fold_insertStep_same_or_marked (ps : list Z) (result : str) :
  fold_left insertStep ps result = result
  \/ In SOFT_HYPHEN (fold_left insertStep ps result).
Proof.
  revert result. induction ps as [|p ps IH]; intros result; simpl.
  - now left.
  - destruct (insertStep_same_or_marked result p) as [E|M].
    + rewrite E. apply IH.
    + right. now apply fold_insertStep_keeps_marker.
Qed.

(** The shape of a call of [hyphenateWord]: a guard returns the word, or the
    insertion loop runs on the boundaries found. *)
Lemma hyphenateWord_shape (word : str) (t : Tables) :
  hyphenateWord word t = (word, t)
  \/ ((len word <? 5) = false
      /\ existsb (char_eqb HYPHEN_MINUS) word = false
      /\ existsb (char_eqb SOFT_HYPHEN) word = false
      /\ isAlphabetic word = true
      /\ hyphenateWord word t
         = (insertLoop word (fst (findSyllableBoundaries word t)),
            snd (findSyllableBoundaries word t))).
Proof.
  unfold hyphenateWord.
  destruct (len word <? 5); [now left|].
  destruct (existsb (char_eqb HYPHEN_MINUS) word); [now left|].
  destruct (existsb (char_eqb SOFT_HYPHEN) word); [now left|].
  destruct (isAlphabetic word); [|now left]. simpl.
  unfold bind. destruct (findSyllableBoundaries word t) as [bs t1]. simpl.
  right. repeat split.
  destruct bs as [|b bs]; reflexivity.
Qed.

Lemma hyphenateWord_strip (word : str) (t : Tables) :
  stripSoftHyphens (fst (hyphenateWord word t)) = stripSoftHyphens word.
Proof.
  destruct (hyphenateWord_shape word t) as [->|(_ & _ & _ & _ & ->)];
    [reflexivity|].
  apply fold_insertStep_strip.
Qed.

Lemma hyphenateWord_same_or_marked (word : str) (t : Tables) :
  fst (hyphenateWord word t) = word
  \/ In SOFT_HYPHEN (fst (hyphenateWord word t)).
Proof.
  destruct (hyphenateWord_shape word t) as [->|(_ & _ & _ & _ & ->)];
    [now left|].
  apply fold_insertStep_same_or_marked.
Qed.

Lemma hyphenateWord_marked (word : str) (t : Tables) :
  In SOFT_HYPHEN word -> hyphenateWord word t = (word, t).
Proof.
  intros H. unfold hyphenateWord.
  destruct (len word <? 5); [reflexivity|].
  replace (existsb (char_eqb SOFT_HYPHEN) word) with true.
  - now rewrite orb_true_r.
  - symmetry. apply existsb_exists. exists SOFT_HYPHEN. split; [exact H|].
    apply N.eqb_refl.
Qed.

Lemma strip_unmarked (s : str) :
  existsb (char_eqb SOFT_HYPHEN) s = false -> stripSoftHyphens s = s.
Proof.
  unfold stripSoftHyphens.
  induction s as [|c s IH]; cbn [existsb filter]; [reflexivity|].
  intros H. apply orb_false_elim in H. destruct H as [Hc Hs].
  unfold char_eqb in *. rewrite N.eqb_sym in Hc. rewrite Hc. cbn [negb].
  now rewrite IH.
Qed.

(** * The claims *)

(** ** C1: the tables under the calls *)

(** C1, as stated, fails: the tables are not read-only. One call of
    [hyphenateWord] on "HAMBURG" from the freshly loaded module leaves
    [PREFIXES] and [SUFFIXES] in another order than the source gives them, a
    call on "HOHEIT" (where the V-CV rule is reached) does the same to
    [INSEPARABLE_CLUSTERS], and the source order of [PREFIXES] is not
    longest-first. *)
Lemma C1_tables_are_mutated :
  PREFIXES (snd (hyphenateWord (lit "HAMBURG") initialTables))
    <> PREFIXES initialTables
  /\ SUFFIXES (snd (hyphenateWord (lit "HAMBURG") initialTables))
    <> SUFFIXES initialTables
  /\ INSEPARABLE_CLUSTERS (snd (hyphenateWord (lit "HOHEIT") initialTables))
    <> INSEPARABLE_CLUSTERS initialTables
  /\ sort byLengthDesc (PREFIXES initialTables) <> PREFIXES initialTables.
Proof.
  repeat split; vm_compute; intros H; discriminate H.
Qed.

(** C1, amended: a call may sort each table in place and does nothing else
    to it. After any sequence of calls from the freshly loaded module each
    table is either in its source order or in stable longest-first order;
    every call leaves each table either as it was or sorted, hence with the
    same entries; and once all three tables are sorted every call leaves the
    store unchanged. *)
Theorem C1_tables_sorted_in_place :
  forall (calls : list Call) (c : Call) (t : Tables),
    evolves initialTables (tablesAfter calls initialTables)
    /\ evolves t (snd (runCall c t))
    /\ Permutation (PREFIXES (snd (runCall c t))) (PREFIXES t)
    /\ Permutation (SUFFIXES (snd (runCall c t))) (SUFFIXES t)
    /\ Permutation (INSEPARABLE_CLUSTERS (snd (runCall c t)))
                   (INSEPARABLE_CLUSTERS t)
    /\ snd (runCall c (sortTables t)) = sortTables t.
Proof.
  intros calls c t.
  pose proof (proj1 (wb_runCall c) t) as E.
  split; [apply tablesAfter_evolves|]. split; [exact E|].
  destruct E as (HP & HS & HC).
  repeat split.
  - destruct HP as [->| ->]; [reflexivity|apply sort_perm].
  - destruct HS as [->| ->]; [reflexivity|apply sort_perm].
  - destruct HC as [->| ->]; [reflexivity|apply sort_perm].
  - apply evolves_sorted, (proj1 (wb_runCall c)).
Qed.

(** ** C5: idempotence *)

(** C5: applying [hyphenateWord] to its own result, in the store the first
    call left behind, gives that result again. *)
Theorem C5_hyphenateWord_idempotent :
  forall (w : str) (t : Tables),
    fst (hyphenateWord (fst (hyphenateWord w t)) (snd (hyphenateWord w t)))
    = fst (hyphenateWord w t).
Proof.
  intros w t.
  destruct (hyphenateWord_same_or_marked w t) as [E|M].
  - rewrite E at 1.
    rewrite <- (proj2 (wb_hyphenateWord w) t (snd (hyphenateWord w t)));
      [reflexivity|].
    apply evolves_sameView, (proj1 (wb_hyphenateWord w)).
  - now rewrite hyphenateWord_marked.
Qed.

(** ** C6: stripping the markers *)

(** C6, as stated, fails on a word that already carries a marker: the guard
    returns "Ham", U+00AD, "burg" as it is, and stripping U+00AD from it
    gives "Hamburg", not the input. *)
Lemma C6_marked_input_not_restored :
  let w := lit "Ham" ++ [SOFT_HYPHEN] ++ lit "burg" in
  stripSoftHyphens (fst (hyphenateWord w initialTables)) <> w.
Proof. vm_compute. intros H. discriminate H. Qed.

(** C6, amended: stripping U+00AD from [hyphenateWord w] gives [w] with its
    own U+00AD stripped, which is [w] itself when [w] has none; and a [w]
    that has one is returned as it is. So the result is always [w] with
    zero or more U+00AD inserted. *)
Theorem C6_strip_hyphenateWord :
  forall (w : str) (t : Tables),
    stripSoftHyphens (fst (hyphenateWord w t)) = stripSoftHyphens w
    /\ (existsb (char_eqb SOFT_HYPHEN) w = false ->
        stripSoftHyphens (fst (hyphenateWord w t)) = w)
    /\ (In SOFT_HYPHEN w -> fst (hyphenateWord w t) = w).
Proof.
  intros w t. split; [apply hyphenateWord_strip|]. split.
  - intros H. rewrite hyphenateWord_strip. now apply strip_unmarked.
  - intros H. now rewrite hyphenateWord_marked.
Qed.

(** "HAMBURG" has no U+00AD: stripping its result gives it back.
    "Ham", U+00AD, "burg" has one: it is returned as it is. *)
Lemma C6_strip_hyphenateWord_witness :
  stripSoftHyphens (fst (hyphenateWord (lit "HAMBURG") initialTables))
  = lit "HAMBURG"
  /\ fst (hyphenateWord (lit "Ham" ++ [SOFT_HYPHEN] ++ lit "burg")
                        initialTables)
     = lit "Ham" ++ [SOFT_HYPHEN] ++ lit "burg".
Proof.
  split.
  - apply (proj1 (proj2 (C6_strip_hyphenateWord
                           (lit "HAMBURG") initialTables))).
    reflexivity.
  - apply (proj2 (proj2 (C6_strip_hyphenateWord
                           (lit "Ham" ++ [SOFT_HYPHEN] ++ lit "burg")
                           initialTables))).
    vm_compute. do 3 right. left. reflexivity.
Defined.

(** ** C8: short words *)

(** C8: a word of fewer than 5 code units is returned unchanged (and the
    store is not touched). *)
Theorem C8_short_word_unchanged :
  forall (w : str) (t : Tables),
    len w < 5 -> hyphenateWord w t = (w, t).
Proof.
  intros w t H. unfold hyphenateWord.
  destruct (Z.ltb_spec (len w) 5); [reflexivity|lia].
Qed.

(** "ROT" has 3 code units. *)
Lemma C8_short_word_unchanged_witness :
  hyphenateWord (lit "ROT") initialTables = (lit "ROT", initialTables).
Proof.
  apply (C8_short_word_unchanged (lit "ROT") initialTables).
  vm_compute. reflexivity.
Defined.

(** ** C9: the word "HAMBURG" *)

(** C9: at any point of the life of the module, [hyphenateWord] turns
    "HAMBURG" into "HAM", U+00AD, "BURG". The only boundary found is 3: no
    prefix and no suffix matches; at offset 3 the V-CV rule does not apply
    and the consonant-consonant rule does ("m" and "b" are distinct
    consonants, no inseparable cluster occurs in "mbu", "ham" and "burg"
    both have a vowel); at the other offsets of the interior loop no rule
    adds anything. *)
Theorem C9_hamburg :
  forall (calls : list Call),
    let t := tablesAfter calls initialTables in
    let word := lit "HAMBURG" in
    let lowerWord := toLowerCase word in
    fst (hyphenateWord word t) = lit "HAM" ++ [SOFT_HYPHEN] ++ lit "BURG"
    /\ fst (findSyllableBoundaries word t) = [3]
    /\ prefixLoop (sort byLengthDesc (PREFIXES t)) word lowerWord [] = (0, [])
    /\ suffixLoop (sort byLengthDesc (SUFFIXES t)) word lowerWord = 7
    /\ range (0 + 1) (7 - 1) = [1; 2; 3; 4; 5]
    /\ isVowel (at_ lowerWord 2) = false
    /\ isConsonant (at_ lowerWord 2) && isConsonant (at_ lowerWord 3)
       && negb (ochar_eqb (at_ lowerWord 2) (at_ lowerWord 3)) = true
    /\ isClusterLoop (INSEPARABLE_CLUSTERS t) (slice lowerWord (3 - 1) (3 + 2))
       = false
    /\ someVowel (slice lowerWord 0 3) = true
    /\ someVowel (sliceFrom lowerWord 3) = true
    /\ fst (scanBody lowerWord [] 3 t) = [3]
    /\ (forall (boundaries : list Z) (i : Z),
          In i [1; 2; 4; 5] -> fst (scanBody lowerWord boundaries i t) = boundaries).
Proof.
  intros calls t word lowerWord.
  assert (V : sameView initialTables t)
    by apply evolves_sameView, tablesAfter_evolves.
  destruct V as (VP & VS & VC).
  repeat match goal with |- _ /\ _ => split end.
  - unfold t. rewrite (value_any_time _ calls _ (wb_hyphenateWord word)).
    vm_compute. reflexivity.
  - unfold t.
    rewrite (value_any_time _ calls _ (wb_findSyllableBoundaries word)).
    vm_compute. reflexivity.
  - rewrite <- VP. vm_compute. reflexivity.
  - rewrite <- VS. vm_compute. reflexivity.
  - vm_compute. reflexivity.
  - vm_compute. reflexivity.
  - vm_compute. reflexivity.
  - rewrite <- isClusterLoop_sort, <- VC. vm_compute. reflexivity.
  - vm_compute. reflexivity.
  - vm_compute. reflexivity.
  - unfold t.
    rewrite (value_any_time _ calls _ (wb_scanBody lowerWord [] 3)).
    vm_compute. reflexivity.
  - intros boundaries i Hi. unfold t.
    rewrite (value_any_time _ calls _ (wb_scanBody lowerWord boundaries i)).
    unfold scanBody.
    destruct (arr_includes boundaries i); [reflexivity|].
    simpl in Hi.
    destruct Hi as [<-|[<-|[<-|[<-|[]]]]]; vm_compute; reflexivity.
Qed.

(** ** C2: the runs between the markers *)

(** C2 does not hold on the code: at any point of the life of the module,
    "ERNTE" gets the boundaries 2 (the prefix "er") and 3 (the
    consonant-consonant rule at "n", "t"); both pass the test of the
    insertion loop, and the run "N" between the two markers has length 1. *)
Theorem C2_ernte_one_letter_run :
  forall (calls : list Call),
    let t := tablesAfter calls initialTables in
    fst (findSyllableBoundaries (lit "ERNTE") t) = [2; 3]
    /\ fst (hyphenateWord (lit "ERNTE") t)
       = lit "ER" ++ [SOFT_HYPHEN] ++ lit "N" ++ [SOFT_HYPHEN] ++ lit "TE"
    /\ runs (fst (hyphenateWord (lit "ERNTE") t))
       = [lit "ER"; lit "N"; lit "TE"]
    /\ ~ Forall (fun run => 2 <= len run)
               (runs (fst (hyphenateWord (lit "ERNTE") t))).
Proof.
  intros calls t. unfold t.
  rewrite (value_any_time _ calls _ (wb_hyphenateWord (lit "ERNTE"))).
  rewrite (value_any_time _ calls _ (wb_findSyllableBoundaries (lit "ERNTE"))).
  repeat split; try (vm_compute; reflexivity).
  intros H. vm_compute in H.
  inversion H as [|? ? _ H1]; subst. inversion H1 as [|? ? H2 _]; subst.
  apply H2. reflexivity.
Qed.

(** ** C3: where the markers go *)

Lemma markerOffsets_app (a tl rest : str) (o : Z) :
  markerOffsets (a ++ tl) (a ++ rest) o = markerOffsets tl rest (o + len a).
Proof.
  revert o. induction a as [|c a IH]; intros o.
  - simpl. f_equal. unfold len. simpl. lia.
  - cbn [app markerOffsets]. unfold char_eqb at 1. rewrite N.eqb_refl.
    rewrite IH. f_equal. unfold len. cbn [List.length]. lia.
Qed.

Lemma markerOffsets_same (w : str) (o : Z) : markerOffsets w w o = [].
Proof.
  rewrite <- (app_nil_r w) at 1 2. rewrite markerOffsets_app.
  reflexivity.
Qed.

Lemma markerOffsets_marker (tl rest : str) (o : Z) :
  ~ In SOFT_HYPHEN rest ->
  markerOffsets (SOFT_HYPHEN :: tl) rest o = o :: markerOffsets tl rest o.
Proof.
  intros H. destruct rest as [|x rest]; cbn [markerOffsets].
  - reflexivity.
  - destruct (char_eqb SOFT_HYPHEN x) eqn:E.
    + apply N.eqb_eq in E. exfalso. apply H. now left.
    + reflexivity.
Qed.

Lemma unmarked_not_In (w : str) :
  existsb (char_eqb SOFT_HYPHEN) w = false -> ~ In SOFT_HYPHEN w.
Proof.
  intros H Hin.
  assert (E : existsb (char_eqb SOFT_HYPHEN) w = true).
  { apply existsb_exists. exists SOFT_HYPHEN. split; [exact Hin|].
    apply N.eqb_refl. }
  congruence.
Qed.

Section InsertionOrder.
Variable w : str.
Hypothesis w_unmarked : ~ In SOFT_HYPHEN w.

(** Where the insertion loop stands: [result] agrees with [w] on the
    first [q] code units, and [offs] are the markers after them. Either
    nothing has been inserted yet, or [q] is the last offset used, one of
    the offsets already handled. *)
Lemma insert_from_the_end (l : list Z) :
  StronglySorted (before ascending) l ->
  exists (q : Z) (offs : list Z) (tl : str),
    let result := fold_right (fun pos r => insertStep r pos) w l in
    0 <= q <= len w
    /\ ((result = w /\ q = len w) \/ (q <= len w - 2 /\ In q l))
    /\ result = firstn (Z.to_nat q) w ++ tl
    /\ markerOffsets tl (skipn (Z.to_nat q) w) q = offs
    /\ Forall (fun o => 2 <= o <= len w - 2) offs.
Proof.
  induction 1 as [|d l Hl IH Hd].
  - exists (len w), [], []. cbn zeta. simpl fold_right.
    pose proof (len_nonneg w).
    split; [lia|]. split; [now left|]. split.
    + rewrite app_nil_r. symmetry. apply firstn_all2. unfold len. lia.
    + split; [reflexivity|constructor].
  - destruct IH as (q & offs & tl & Hq & Hcase & Hr & Hoffs & Hrange).
    cbn zeta in *. cbn [fold_right].
    set (r := fold_right (fun pos r => insertStep r pos) w l) in *.
    assert (Hdq : (r = w /\ q = len w) \/ (q <= len w - 2 /\ d <= q)).
    { destruct Hcase as [?|[? Hin]]; [now left|right]. split; [assumption|].
      rewrite Forall_forall in Hd. specialize (Hd q Hin).
      unfold before, ascending in Hd. lia. }
    destruct (insertStep_cases r d) as [E|[G E]].
    + rewrite E. exists q, offs, tl.
      split; [exact Hq|]. split.
      * destruct Hcase as [?|[? ?]]; [now left|right].
        split; [assumption|now right].
      * repeat split; assumption.
    + rewrite E. apply andb_prop in G. destruct G as [G1 G2].
      apply Z.geb_le in G1. apply Z.leb_le in G2.
      assert (Hd2 : d <= len w - 2 /\ d <= q).
      { destruct Hdq as [[Hw ->]|[? ?]]; [rewrite Hw in G2|]; lia. }
      destruct Hd2 as [Hd2 Hd3].
      assert (Hn : (Z.to_nat d <= Z.to_nat q)%nat) by lia.
      assert (Hlen : (Z.to_nat q <= List.length w)%nat)
        by (unfold len in Hq; lia).
      exists d, (d :: offs),
        (SOFT_HYPHEN :: skipn (Z.to_nat d) (firstn (Z.to_nat q) w) ++ tl).
      split; [lia|]. split; [right; split; [lia|now left]|].
      assert (Hfirst : firstn (Z.to_nat d) r = firstn (Z.to_nat d) w).
      { rewrite Hr. rewrite firstn_app.
        rewrite firstn_firstn, Nat.min_l by exact Hn.
        rewrite length_firstn, Nat.min_l by exact Hlen.
        replace (Z.to_nat d - Z.to_nat q)%nat with 0%nat by lia.
        simpl. apply app_nil_r. }
      assert (Hskip : skipn (Z.to_nat d) r
                      = skipn (Z.to_nat d) (firstn (Z.to_nat q) w) ++ tl).
      { rewrite Hr. rewrite skipn_app.
        rewrite length_firstn, Nat.min_l by exact Hlen.
        replace (Z.to_nat d - Z.to_nat q)%nat with 0%nat by lia.
        reflexivity. }
      split; [now rewrite Hfirst, Hskip|].
      split; [|constructor; [lia|exact Hrange]].
      assert (Hw : skipn (Z.to_nat d) w
                   = skipn (Z.to_nat d) (firstn (Z.to_nat q) w)
                     ++ skipn (Z.to_nat q) w).
      { rewrite <- (firstn_skipn (Z.to_nat q) w) at 1.
        rewrite skipn_app.
        rewrite length_firstn, Nat.min_l by exact Hlen.
        replace (Z.to_nat d - Z.to_nat q)%nat with 0%nat by lia.
        reflexivity. }
      rewrite markerOffsets_marker.
      * f_equal. rewrite Hw, markerOffsets_app.
        rewrite <- Hoffs. f_equal.
        unfold len. rewrite length_skipn, length_firstn.
        rewrite Nat.min_l by exact Hlen. lia.
      * intros Hin. apply w_unmarked.
        rewrite <- (firstn_skipn (Z.to_nat d) w).
        apply in_or_app. now right.
Qed.

Lemma insertLoop_markers (l : list Z) :
  StronglySorted (before ascending) l ->
  Forall (fun o => 2 <= o <= len w - 2) (markerOffsets (insertLoop w l) w 0).
Proof.
  intros Hl.
  destruct (insert_from_the_end l Hl)
    as (q & offs & tl & Hq & _ & Hr & Hoffs & Hrange).
  cbn zeta in *. unfold insertLoop.
  rewrite <- fold_left_rev_right, rev_involutive.
  rewrite Hr. rewrite <- (firstn_skipn (Z.to_nat q) w) at 2.
  rewrite markerOffsets_app.
  replace (0 + len (firstn (Z.to_nat q) w)) with q.
  - now rewrite Hoffs.
  - unfold len in *. rewrite length_firstn, Nat.min_l by lia. lia.
Qed.
End InsertionOrder.

Lemma findSyllableBoundaries_sorted (word : str) (t : Tables) :
  StronglySorted (before ascending) (fst (findSyllableBoundaries word t)).
Proof.
  unfold findSyllableBoundaries.
  destruct (len word <? 4); [constructor|].
  unfold bind. simpl.
  destruct (prefixLoop _ _ _ _) as [prefixEnd bs].
  simpl. destruct (foldM _ _ _ _) as [bs' t']. simpl.
  apply sort_sorted; [apply ascending_total|apply ascending_trans].
Qed.

(** C3, as stated, fails: the bounds are not strict. "ABEND" has the prefix
    "ab", and its marker sits at offset 2. *)
Lemma C3_abend_marker_at_2 :
  In 2 (markerOffsets (fst (hyphenateWord (lit "ABEND") initialTables))
                      (lit "ABEND") 0)
  /\ ~ (2 < 2 < len (lit "ABEND") - 2).
Proof. split; [vm_compute; now left|lia]. Qed.

(** C3, amended: every marker that [hyphenateWord] inserts into [w] sits at
    an offset [o] of [w] with [2 <= o <= length w - 2]. *)
Theorem C3_marker_bounds :
  forall (w : str) (t : Tables) (o : Z),
    In o (markerOffsets (fst (hyphenateWord w t)) w 0) ->
    2 <= o <= len w - 2.
Proof.
  intros w t o.
  destruct (hyphenateWord_shape w t) as [->|(_ & _ & M & _ & ->)]; simpl.
  - now rewrite markerOffsets_same.
  - pose proof (insertLoop_markers w (unmarked_not_In w M) _
                  (findSyllableBoundaries_sorted w t)) as H.
    rewrite Forall_forall in H. apply H.
Qed.

(** The marker of "HAMBURG" sits at offset 3. *)
Lemma C3_marker_bounds_witness : 2 <= 3 <= len (lit "HAMBURG") - 2.
Proof.
  apply (C3_marker_bounds (lit "HAMBURG") initialTables 3).
  vm_compute. left. reflexivity.
Defined.

(** ** C4: the suffix boundary *)

(** The test of the suffix loop on one entry. *)
Lemma suffixLoop_find (ss : list str) (word lowerWord : str) :
  suffixLoop ss word lowerWord
  = match find (fun suffix =>
                  endsWith lowerWord suffix && (len word >? len suffix + 2)
                  && (len (slice lowerWord 0 (- len suffix)) >? 0)) ss with
    | Some suffix => len word - len suffix
    | None => len word
    end.
Proof.
  induction ss as [|s ss IH]; simpl; [reflexivity|].
  destruct (endsWith lowerWord s && (len word >? len s + 2)); simpl.
  - destruct (len (slice lowerWord 0 (- len s)) >? 0); [reflexivity|exact IH].
  - exact IH.
Qed.

Lemma len_slice_before (s : str) (n : Z) :
  0 < n <= len s -> len (slice s 0 (- n)) = len s - n.
Proof.
  intros H. unfold slice. cbv zeta.
  change (0 <? 0) with false. cbv iota.
  destruct (Z.ltb_spec (- n) 0); [|lia].
  rewrite (Z.min_l 0 (len s)) by lia.
  rewrite (Z.max_l (len s + - n) 0) by lia.
  simpl skipn. unfold len in *. rewrite length_firstn. lia.
Qed.

Lemma slice_0_0 (s : str) : slice s 0 0 = [].
Proof.
  unfold slice. cbv zeta. change (0 <? 0) with false. cbv iota.
  rewrite Z.min_l by apply len_nonneg. reflexivity.
Qed.

Lemma len_toLowerCase (s : str) : len (toLowerCase s) = len s.
Proof. unfold len, toLowerCase. now rewrite length_map. Qed.

(** In an array sorted longest-first, the first entry that passes a test is
    a longest one that passes it. *)
Lemma find_longest (f : str -> bool) (l : list str) (s : str) :
  StronglySorted (before byLengthDesc) l -> In s l -> f s = true ->
  exists x, find f l = Some x /\ In x l /\ f x = true
            /\ forall y, In y l -> f y = true -> len y <= len x.
Proof.
  intros Hl. revert s. induction Hl as [|a l Hl IH Ha]; intros s Hin Hs.
  - destruct Hin.
  - simpl. destruct (f a) eqn:Fa.
    + exists a. repeat split; [now left|exact Fa|].
      intros y [<-|Hy] _; [lia|].
      rewrite Forall_forall in Ha. specialize (Ha y Hy).
      unfold before, byLengthDesc in Ha. lia.
    + destruct Hin as [->|Hin]; [congruence|].
      destruct (IH s Hin Hs) as (x & Hx & Hxin & Fx & Hmax).
      exists x. repeat split; [exact Hx|now right|exact Fx|].
      intros y [<-|Hy] Fy; [congruence|now apply Hmax].
Qed.

Lemma arr_includes_In (a : list Z) (x : Z) :
  arr_includes a x = true <-> In x a.
Proof.
  unfold arr_includes. rewrite existsb_exists. split.
  - intros (y & Hy & E). apply Z.eqb_eq in E. now subst.
  - intros H. exists x. split; [exact H|apply Z.eqb_refl].
Qed.

(** What [findSyllableBoundaries] returns on a word of 4 code units or
    more: the sorted array, which holds [suffixStart] once a suffix has
    been found. *)
Lemma findSyllableBoundaries_suffix (word : str) (t : Tables) :
  (len word <? 4) = false ->
  let suffixStart :=
    suffixLoop (sort byLengthDesc (SUFFIXES t)) word (toLowerCase word) in
  suffixStart < len word -> 1 < suffixStart ->
  In suffixStart (fst (findSyllableBoundaries word t)).
Proof.
  intros H4 suffixStart Hlt Hgt.
  unfold findSyllableBoundaries. rewrite H4.
  unfold bind. simpl.
  destruct (prefixLoop _ _ _ _) as [prefixEnd bs]. simpl.
  fold suffixStart.
  destruct (foldM _ _ _ _) as [bs' t']. simpl.
  apply (Permutation_in _ (Permutation_sym (sort_perm ascending _))).
  destruct (Z.ltb_spec suffixStart (len word)); [|lia]. simpl.
  destruct (arr_includes bs' suffixStart) eqn:E; simpl.
  - now apply arr_includes_In.
  - destruct (Z.gtb_spec suffixStart 1); [|lia].
    unfold push. apply in_or_app. right. now left.
Qed.

(** C4, as stated, fails: one character before the suffix is not enough,
    the loop asks for more than two. "ÖLUNG" passes the guards of
    [hyphenateWord], its lower-cased form ends with the known suffix "ung"
    and two characters come before it; yet the suffix loop leaves
    [suffixStart] at the length of the word, and offset 2, which is less than
    the length, more than 1 and no boundary, is not in the array returned. *)
Lemma C4_oelung_suffix_not_recorded :
  let word := lit "ÖLUNG" in
  let lowerWord := toLowerCase word in
  5 <= len word
  /\ isAlphabetic word = true
  /\ In (lit "ung") (SUFFIXES initialTables)
  /\ endsWith lowerWord (lit "ung") = true
  /\ 1 <= len word - len (lit "ung")
  /\ suffixLoop (sort byLengthDesc (SUFFIXES initialTables)) word lowerWord
     = len word
  /\ fst (findSyllableBoundaries word initialTables) = [1]
  /\ ~ In (len word - len (lit "ung"))
          (fst (findSyllableBoundaries word initialTables)).
Proof.
  cbv zeta. repeat split; try (vm_compute; reflexivity).
  - vm_compute. discriminate.
  - vm_compute. do 3 right. left. reflexivity.
  - vm_compute. discriminate.
  - vm_compute. intros [H|[]]. discriminate H.
Qed.

(** C4, amended: for a word that passes the guards of [hyphenateWord] and
    whose lower-cased form ends with a known suffix that leaves more than
    two characters before it, the suffix loop sets [suffixStart] to the
    length of the word minus the length of the longest such suffix, and
    that offset is in the array returned. *)
Theorem C4_suffix_boundary :
  forall (word : str) (t : Tables) (suffix : str),
    5 <= len word ->
    isAlphabetic word = true ->
    In suffix (SUFFIXES t) ->
    suffix <> [] ->
    endsWith (toLowerCase word) suffix = true ->
    len suffix + 2 < len word ->
    exists longest : str,
      In longest (SUFFIXES t)
      /\ longest <> []
      /\ endsWith (toLowerCase word) longest = true
      /\ len longest + 2 < len word
      /\ (forall s : str,
            In s (SUFFIXES t) -> s <> [] ->
            endsWith (toLowerCase word) s = true ->
            len s + 2 < len word -> len s <= len longest)
      /\ suffixLoop (sort byLengthDesc (SUFFIXES t)) word (toLowerCase word)
         = len word - len longest
      /\ In (len word - len longest) (fst (findSyllableBoundaries word t)).
Proof.
  intros word t suffix H5 _ Hin Hne Hends Hlen.
  set (lowerWord := toLowerCase word) in *.
  set (test := fun s : str =>
         endsWith lowerWord s && (len word >? len s + 2)
         && (len (slice lowerWord 0 (- len s)) >? 0)).
  assert (Htest : forall s : str,
            test s = true
            <-> (s <> [] /\ endsWith lowerWord s = true
                 /\ len s + 2 < len word)).
  { intros s. unfold test. rewrite !andb_true_iff.
    rewrite Z.gtb_gt. pose proof (len_nonneg s) as Hs.
    destruct s as [|c s].
    - split; [|intros (C & _); congruence].
      intros (_ & C). exfalso. change (- len []) with 0 in C.
      rewrite slice_0_0 in C. discriminate C.
    - assert (0 < len (c :: s)) by (unfold len; simpl; lia).
      split.
      + intros ((E & L) & _). repeat split; [discriminate|exact E|lia].
      + intros (_ & E & L). repeat split; [exact E|lia|].
        rewrite len_slice_before; unfold lowerWord;
          rewrite len_toLowerCase; lia. }
  destruct (find_longest test (sort byLengthDesc (SUFFIXES t)) suffix)
    as (longest & Hfind & Hlin & Hlt & Hmax).
  - apply sort_sorted; [apply byLengthDesc_total|apply byLengthDesc_trans].
  - apply (Permutation_in _ (Permutation_sym (sort_perm _ _))). exact Hin.
  - apply Htest. auto.
  - apply Htest in Hlt. destruct Hlt as (Lne & Lends & Llen).
    assert (Hstart : suffixLoop (sort byLengthDesc (SUFFIXES t)) word lowerWord
                     = len word - len longest).
    { rewrite suffixLoop_find. fold test. now rewrite Hfind. }
    exists longest. repeat split; try assumption.
    + apply (Permutation_in _ (sort_perm byLengthDesc _)). exact Hlin.
    + intros s Hs Hsne Hsends Hslen. apply Hmax.
      * apply (Permutation_in _ (Permutation_sym (sort_perm _ _))).
        exact Hs.
      * apply Htest. auto.
    + rewrite <- Hstart. apply findSyllableBoundaries_suffix.
      * apply Z.ltb_ge. lia.
      * fold lowerWord. rewrite Hstart.
        assert (0 < len longest); [|lia].
        destruct longest; [congruence|unfold len; simpl; lia].
      * fold lowerWord. rewrite Hstart. lia.
Qed.

(** "ZEITUNG" ends with "ung", with four characters before it. *)
Lemma C4_suffix_boundary_witness :
  exists longest : str,
    In longest (SUFFIXES initialTables)
    /\ longest <> []
    /\ endsWith (toLowerCase (lit "ZEITUNG")) longest = true
    /\ len longest + 2 < len (lit "ZEITUNG")
    /\ (forall s : str,
          In s (SUFFIXES initialTables) -> s <> [] ->
          endsWith (toLowerCase (lit "ZEITUNG")) s = true ->
          len s + 2 < len (lit "ZEITUNG") -> len s <= len longest)
    /\ suffixLoop (sort byLengthDesc (SUFFIXES initialTables))
                  (lit "ZEITUNG") (toLowerCase (lit "ZEITUNG"))
       = len (lit "ZEITUNG") - len longest
    /\ In (len (lit "ZEITUNG") - len longest)
          (fst (findSyllableBoundaries (lit "ZEITUNG") initialTables)).
Proof.
  apply (C4_suffix_boundary (lit "ZEITUNG") initialTables (lit "ung")).
  - vm_compute. discriminate.
  - vm_compute. reflexivity.
  - vm_compute. do 3 right. left. reflexivity.
  - vm_compute. discriminate.
  - vm_compute. reflexivity.
  - vm_compute. reflexivity.
Defined.

(** ** Splitting at whitespace and joining again *)

Lemma join_splitGo (s : str) :
  forall (inWs : bool) (acc : str),
    join (splitGo inWs acc s) = rev acc ++ s.
Proof.
  unfold join.
  induction s as [|c s IH]; intros inWs acc; simpl.
  - destruct inWs; simpl; now rewrite !app_nil_r.
  - destruct (isWhitespace c), inWs; simpl; rewrite IH; simpl;
      now rewrite <- ?app_assoc.
Qed.

Lemma join_splitWs (text : str) : join (splitWs text) = text.
Proof. apply join_splitGo. Qed.

Lemma wordPiece_rev (s : str) : wordPiece (rev s) = wordPiece s.
Proof.
  unfold wordPiece. induction s as [|c s IH]; simpl; [reflexivity|].
  rewrite forallb_app, IH. simpl. rewrite andb_true_r. apply andb_comm.
Qed.

Lemma whitespaceRun_rev (c : char) (s : str) :
  isWhitespace c = true -> forallb isWhitespace s = true ->
  isWhitespaceRun (rev (c :: s)) = true.
Proof.
  intros Hc Hs.
  assert (A : forallb isWhitespace (rev (c :: s)) = true).
  { simpl. rewrite forallb_app. simpl. rewrite Hc.
    rewrite andb_true_r.
    rewrite forallb_forall in *. intros x Hx. apply Hs. now apply in_rev. }
  unfold isWhitespaceRun. destruct (rev (c :: s)) eqn:E; [|exact A].
  apply (f_equal (@List.length char)) in E. rewrite length_rev in E.
  discriminate E.
Qed.

Lemma splitGo_pieces (s : str) :
  (forall (acc : str) (first : bool),
      wordPiece acc = true -> first = true \/ acc <> [] ->
      Pieces first (splitGo false acc s))
  /\ (forall (c : char) (acc : str),
        isWhitespace c = true -> forallb isWhitespace acc = true ->
        exists (run : str) (rest : list str),
          splitGo true (c :: acc) s = run :: rest
          /\ isWhitespaceRun run = true /\ Pieces false rest).
Proof.
  induction s as [|d s [IHw IHr]]; split.
  - intros acc first Hacc _. simpl. constructor. now rewrite wordPiece_rev.
  - intros c acc Hc Hacc. exists (rev (c :: acc)), [[]].
    split; [reflexivity|]. split; [now apply whitespaceRun_rev|].
    now constructor.
  - intros acc first Hacc Hfirst. cbn [splitGo].
    destruct (isWhitespace d) eqn:Ed.
    + destruct (IHr d [] Ed eq_refl) as (run & rest & -> & Hrun & Hrest).
      constructor; try assumption.
      * now rewrite wordPiece_rev.
      * destruct Hfirst as [?|Hne]; [now left|right].
        intros E. apply Hne. destruct acc; [reflexivity|].
        apply (f_equal (@List.length char)) in E. rewrite length_rev in E.
        discriminate E.
    + apply IHw; [|right; discriminate].
      unfold wordPiece in *. simpl. now rewrite Ed, Hacc.
  - intros c acc Hc Hacc. cbn [splitGo].
    destruct (isWhitespace d) eqn:Ed.
    + apply IHr; [exact Ed|]. simpl. now rewrite Hc, Hacc.
    + exists (rev (c :: acc)), (splitGo false [d] s).
      split; [reflexivity|]. split; [now apply whitespaceRun_rev|].
      apply IHw; [|right; discriminate].
      unfold wordPiece. simpl. now rewrite Ed.
Qed.

Lemma splitWs_pieces (text : str) : Pieces true (splitWs text).
Proof. apply (proj1 (splitGo_pieces text)); [reflexivity|now left]. Qed.

Lemma splitGo_word (w : str) :
  forall (acc x : str),
    wordPiece w = true ->
    splitGo false acc (w ++ x) = splitGo false (rev w ++ acc) x.
Proof.
  unfold wordPiece.
  induction w as [|c w IH]; intros acc x H; [reflexivity|].
  simpl in H. apply andb_prop in H. destruct H as [Hc Hw].
  apply negb_true_iff in Hc. cbn [app splitGo]. rewrite Hc.
  rewrite IH by exact Hw. simpl. now rewrite <- app_assoc.
Qed.

Lemma splitGo_run (run : str) :
  forall (acc x : str),
    forallb isWhitespace run = true ->
    splitGo true acc (run ++ x) = splitGo true (rev run ++ acc) x.
Proof.
  induction run as [|c run IH]; intros acc x H; [reflexivity|].
  simpl in H. apply andb_prop in H. destruct H as [Hc Hr].
  cbn [app splitGo]. rewrite Hc.
  rewrite IH by exact Hr. simpl. now rewrite <- app_assoc.
Qed.

Lemma whitespaceRun_inv (run : str) :
  isWhitespaceRun run = true ->
  exists c run', run = c :: run' /\ isWhitespace c = true
                 /\ forallb isWhitespace run' = true.
Proof.
  destruct run as [|c run']; [discriminate|].
  simpl. intros H. apply andb_prop in H. destruct H. eauto.
Qed.

(** From a piece into the whitespace run that follows it. *)
Lemma splitGo_piece_then_run (w run acc x : str) :
  wordPiece w = true -> isWhitespaceRun run = true ->
  splitGo false acc (w ++ run ++ x)
  = (rev acc ++ w) :: splitGo true (rev run) x.
Proof.
  intros Hw Hrun.
  destruct (whitespaceRun_inv run Hrun) as (c & run' & -> & Hc & Hr).
  rewrite splitGo_word by exact Hw.
  cbn [app splitGo]. rewrite Hc.
  rewrite rev_app_distr, rev_involutive.
  f_equal. rewrite splitGo_run by exact Hr. reflexivity.
Qed.

Lemma splitGo_after_run (rest : list str) (first : bool) :
  Pieces first rest -> first = false ->
  forall (run : str),
    isWhitespaceRun run = true ->
    splitGo true (rev run) (join rest) = run :: rest.
Proof.
  unfold join.
  induction 1 as [first w Hw|first w run' rest Hw Hne Hrun' Hrest IH];
    intros -> run Hrun.
  - simpl. rewrite app_nil_r. destruct w as [|c w].
    + simpl. now rewrite rev_involutive.
    + unfold wordPiece in Hw. simpl in Hw. apply andb_prop in Hw.
      destruct Hw as [Hc Hw]. apply negb_true_iff in Hc.
      cbn [splitGo]. rewrite Hc. rewrite rev_involutive. f_equal.
      rewrite <- (app_nil_r w) at 1. rewrite splitGo_word by exact Hw.
      simpl. rewrite rev_app_distr, rev_involutive. reflexivity.
  - destruct Hne as [?|Hne]; [discriminate|].
    destruct w as [|c w]; [congruence|].
    assert (Hw' := Hw).
    unfold wordPiece in Hw'. simpl in Hw'. apply andb_prop in Hw'.
    destruct Hw' as [Hc Hw']. apply negb_true_iff in Hc.
    cbn [List.concat app splitGo]. rewrite Hc. rewrite rev_involutive. f_equal.
    rewrite splitGo_piece_then_run by assumption.
    f_equal. now apply IH.
Qed.

(** Splitting what was joined gives the pieces back. *)
Lemma splitWs_join (parts : list str) (first : bool) :
  Pieces first parts -> splitWs (join parts) = parts.
Proof.
  unfold splitWs. intros H. inversion H as [? w Hw|? w run rest Hw Hne Hrun Hrest]; subst.
  - unfold join. simpl. rewrite splitGo_word by exact Hw.
    simpl. now rewrite app_nil_r, rev_involutive.
  - unfold join. cbn [List.concat]. rewrite splitGo_piece_then_run by assumption.
    simpl. f_equal. now apply (splitGo_after_run rest false).
Qed.

(** ** What [hyphenateText] does to each piece *)

Lemma hyphenatePart_run (part : str) (t : Tables) :
  isWhitespaceRun part = true -> hyphenatePart part t = (part, t).
Proof. intros H. unfold hyphenatePart. now rewrite H. Qed.

Lemma hyphenatePart_strip (part : str) (t : Tables) :
  stripSoftHyphens (fst (hyphenatePart part t)) = stripSoftHyphens part.
Proof.
  unfold hyphenatePart.
  destruct (isWhitespaceRun part); [reflexivity|apply hyphenateWord_strip].
Qed.

Lemma hyphenatePart_same_or_marked (part : str) (t : Tables) :
  fst (hyphenatePart part t) = part
  \/ In SOFT_HYPHEN (fst (hyphenatePart part t)).
Proof.
  unfold hyphenatePart.
  destruct (isWhitespaceRun part);
    [now left|apply hyphenateWord_same_or_marked].
Qed.

Lemma strip_In (c : char) (s : str) :
  In c s -> c <> SOFT_HYPHEN -> In c (stripSoftHyphens s).
Proof.
  intros Hin Hc. apply filter_In. split; [exact Hin|].
  apply negb_true_iff. now apply N.eqb_neq.
Qed.

Lemma hyphenatePart_wordPiece (part : str) (t : Tables) :
  wordPiece part = true -> wordPiece (fst (hyphenatePart part t)) = true.
Proof.
  unfold wordPiece. rewrite !forallb_forall. intros H c Hc.
  destruct (N.eq_dec c SOFT_HYPHEN) as [->|Hne]; [reflexivity|].
  apply H. apply (strip_In _ _ Hc) in Hne.
  rewrite hyphenatePart_strip in Hne. apply filter_In in Hne. tauto.
Qed.

Lemma hyphenatePart_nonempty (part : str) (t : Tables) :
  part <> [] -> fst (hyphenatePart part t) <> [].
Proof.
  intros H. destruct (hyphenatePart_same_or_marked part t) as [->|M];
    [exact H|].
  intros E. now rewrite E in M.
Qed.

Lemma hyphenatePart_not_run (part : str) (t : Tables) :
  isWhitespaceRun part = false ->
  isWhitespaceRun (fst (hyphenatePart part t)) = false.
Proof.
  intros H. destruct (hyphenatePart_same_or_marked part t) as [->|M];
    [exact H|].
  clear H. destruct (fst (hyphenatePart part t)) as [|c s]; [reflexivity|].
  destruct (isWhitespaceRun (c :: s)) eqn:E; [|reflexivity].
  unfold isWhitespaceRun in E. rewrite forallb_forall in E.
  specialize (E _ M). discriminate E.
Qed.

Lemma mapM_hyphenated (parts : list str) :
  forall t : Tables,
    Forall2 hyphenated parts (fst (mapM hyphenatePart parts t)).
Proof.
  induction parts as [|p parts IH]; intros t; simpl.
  - constructor.
  - unfold bind. destruct (hyphenatePart p t) as [p' t1] eqn:E.
    specialize (IH t1). destruct (mapM hyphenatePart parts t1) as [ps t2].
    simpl in *. constructor; [|exact IH].
    exists t. now rewrite E.
Qed.

Lemma pieces_hyphenated (first : bool) (parts : list str) :
  Pieces first parts ->
  forall parts' : list str,
    Forall2 hyphenated parts parts' -> Pieces first parts'.
Proof.
  induction 1 as [first w Hw|first w run rest Hw Hne Hrun Hrest IH];
    intros parts' H.
  - inversion H as [|? w' ? ? [t ->] Hnil]; subst.
    inversion Hnil; subst.
    constructor. now apply hyphenatePart_wordPiece.
  - inversion H as [|? w' ? ps1 [t ->] H1]; subst.
    inversion H1 as [|? run' ? ps2 [t' ->] H2]; subst.
    rewrite (hyphenatePart_run run t' Hrun). simpl.
    constructor.
    + now apply hyphenatePart_wordPiece.
    + destruct Hne as [?|Hne]; [now left|right].
      now apply hyphenatePart_nonempty.
    + exact Hrun.
    + now apply IH.
Qed.

Lemma hyphenateText_parts (text : str) (t : Tables) :
  fst (hyphenateText text t)
  = join (fst (mapM hyphenatePart (splitWs text) t)).
Proof.
  unfold hyphenateText, bind.
  now destruct (mapM hyphenatePart (splitWs text) t).
Qed.

(** The pieces of the result are the pieces of the text, each one passed
    through [hyphenatePart]. *)
Lemma hyphenateText_splitWs (text : str) (t : Tables) :
  splitWs (fst (hyphenateText text t))
  = fst (mapM hyphenatePart (splitWs text) t).
Proof.
  rewrite hyphenateText_parts. apply (splitWs_join _ true).
  eapply pieces_hyphenated; [apply splitWs_pieces|apply mapM_hyphenated].
Qed.

Lemma strip_join (parts : list str) :
  stripSoftHyphens (join parts) = join (map stripSoftHyphens parts).
Proof.
  unfold join. induction parts as [|p parts IH]; simpl; [reflexivity|].
  now rewrite strip_app, IH.
Qed.

Lemma hyphenated_strip (parts parts' : list str) :
  Forall2 hyphenated parts parts' ->
  map stripSoftHyphens parts' = map stripSoftHyphens parts.
Proof.
  induction 1 as [|p p' ps ps' [t ->] _ IH]; simpl; [reflexivity|].
  now rewrite hyphenatePart_strip, IH.
Qed.

Lemma hyphenateText_strip (text : str) (t : Tables) :
  stripSoftHyphens (fst (hyphenateText text t)) = stripSoftHyphens text.
Proof.
  rewrite hyphenateText_parts, strip_join.
  rewrite (hyphenated_strip _ _ (mapM_hyphenated (splitWs text) t)).
  now rewrite <- strip_join, join_splitWs.
Qed.

(** ** C7: whole texts *)

(** C7, as stated, fails on a text that already carries a marker:
    [hyphenateText] returns "Ham", U+00AD, "burg ist" as it is, and
    stripping U+00AD from it gives "Hamburg ist", not the input. *)
Lemma C7_marked_text_not_restored :
  let text := lit "Ham" ++ [SOFT_HYPHEN] ++ lit "burg ist" in
  stripSoftHyphens (fst (hyphenateText text initialTables)) <> text.
Proof. vm_compute. intros H. discriminate H. Qed.

(** C7, amended: stripping U+00AD from [hyphenateText text] gives [text]
    with its own U+00AD stripped, which is [text] itself when [text] has
    none; and the result splits at whitespace into as many pieces as
    [text], piece by piece: a whitespace run of [text] is the same run in
    the result, any other piece is a piece that is no whitespace run and
    differs from the one of [text] by U+00AD only. *)
Theorem C7_hyphenateText_preserves :
  forall (text : str) (t : Tables),
    let out := fst (hyphenateText text t) in
    stripSoftHyphens out = stripSoftHyphens text
    /\ (existsb (char_eqb SOFT_HYPHEN) text = false ->
        stripSoftHyphens out = text)
    /\ Forall2 (fun part part' =>
                  if isWhitespaceRun part then part' = part
                  else isWhitespaceRun part' = false
                       /\ stripSoftHyphens part' = stripSoftHyphens part)
               (splitWs text) (splitWs out).
Proof.
  intros text t out. unfold out. split; [apply hyphenateText_strip|].
  split.
  - intros H. rewrite hyphenateText_strip. now apply strip_unmarked.
  - rewrite hyphenateText_splitWs.
    eapply Forall2_impl; [|apply mapM_hyphenated].
    intros part part' [t' ->].
    destruct (isWhitespaceRun part) eqn:E.
    + now rewrite hyphenatePart_run.
    + split; [now apply hyphenatePart_not_run|apply hyphenatePart_strip].
Qed.

(** "HAMBURG IST SCHÖN" has no U+00AD: stripping its result gives it back. *)
Lemma C7_hyphenateText_preserves_witness :
  stripSoftHyphens (fst (hyphenateText (lit "HAMBURG IST SCHÖN") initialTables))
  = lit "HAMBURG IST SCHÖN".
Proof.
  apply (proj1 (proj2 (C7_hyphenateText_preserves
                         (lit "HAMBURG IST SCHÖN") initialTables))).
  vm_compute. reflexivity.
Defined.

(** ** C10: tokens with a code unit outside the alphabet *)

Lemma forallb_existsb_negb {A : Type} (f : A -> bool) (l : list A) :
  existsb (fun x => negb (f x)) l = true -> forallb f l = false.
Proof.
  induction l as [|x l IH]; simpl; [discriminate|].
  destruct (f x); simpl; [exact IH|reflexivity].
Qed.

Lemma hyphenateWord_foreign (word : str) (t : Tables) :
  hasForeign word = true -> hyphenateWord word t = (word, t).
Proof.
  intros H. unfold hyphenateWord.
  destruct (len word <? 5); [reflexivity|].
  destruct (_ || _); [reflexivity|].
  replace (isAlphabetic word) with false; [reflexivity|].
  unfold isAlphabetic. destruct word; [reflexivity|].
  symmetry. now apply forallb_existsb_negb.
Qed.

Lemma Forall2_nth_error_left {A B : Type} (R : A -> B -> Prop)
      (l : list A) (l' : list B) :
  Forall2 R l l' ->
  forall (i : nat) (a : A),
    nth_error l i = Some a -> exists b, nth_error l' i = Some b /\ R a b.
Proof.
  induction 1 as [|x y l l' Hxy _ IH]; intros i a Hi.
  - destruct i; discriminate Hi.
  - destruct i as [|i]; simpl in *.
    + injection Hi as <-. eauto.
    + now apply IH.
Qed.

(** C10: [hyphenateText] cuts the text at whitespace only, and a piece
    (the [i]-th one) in which a code unit outside a-z, A-Z, ä, ö, ü, Ä, Ö,
    Ü, ß occurs is returned as it is, in any store: it is the [i]-th piece
    of the result. *)
Theorem C10_foreign_token_unchanged :
  forall (text : str) (t : Tables) (i : nat) (part : str),
    nth_error (splitWs text) i = Some part ->
    hasForeign part = true ->
    (forall t' : Tables, hyphenatePart part t' = (part, t'))
    /\ nth_error (splitWs (fst (hyphenateText text t))) i = Some part.
Proof.
  intros text t i part Hi Hf.
  assert (Hp : forall t' : Tables, hyphenatePart part t' = (part, t')).
  { intros t'. unfold hyphenatePart.
    destruct (isWhitespaceRun part);
      [reflexivity|now apply hyphenateWord_foreign]. }
  split; [exact Hp|].
  rewrite hyphenateText_splitWs.
  destruct (Forall2_nth_error_left _ _ _
              (mapM_hyphenated (splitWs text) t) i part Hi)
    as (part' & Hi' & t' & ->).
  now rewrite Hp in Hi'.
Qed.

(** The piece "HAMBURG," of "HAMBURG, ZEITUNG" has a comma. *)
Lemma C10_foreign_token_unchanged_witness :
  (forall t' : Tables,
      hyphenatePart (lit "HAMBURG,") t' = (lit "HAMBURG,", t'))
  /\ nth_error
       (splitWs (fst (hyphenateText (lit "HAMBURG, ZEITUNG") initialTables)))
       0
     = Some (lit "HAMBURG,").
Proof.
  apply (C10_foreign_token_unchanged
           (lit "HAMBURG, ZEITUNG") initialTables 0%nat (lit "HAMBURG,")).
  - vm_compute. reflexivity.
  - vm_compute. reflexivity.
Defined.


(** * Further properties of the module *)

(** ** One turn of the interior loop *)

Lemma ochar_eqb_sym (a b : option char) : ochar_eqb a b = ochar_eqb b a.
Proof.
  destruct a, b; simpl; try reflexivity. apply N.eqb_sym.
Qed.

Lemma isConsonant_not_vowel (ch : option char) :
  isVowel ch = true -> isConsonant ch = false.
Proof.
  intros H. unfold isConsonant. rewrite H.
  destruct ch; simpl; [apply andb_false_r|reflexivity].
Qed.

(** The value of one turn: [i] is pushed when it is not there yet and one
    of the three rules holds. *)
Lemma scanBody_value (lowerWord : str) (boundaries : list Z) (i : Z)
      (t : Tables) :
  fst (scanBody lowerWord boundaries i t)
  = if arr_includes boundaries i then boundaries
    else if interiorRule (INSEPARABLE_CLUSTERS t) lowerWord i
         then push boundaries i else boundaries.
Proof.
  unfold scanBody, interiorRule, ruleVCV, ruleCC, ruleDoubled.
  destruct (arr_includes boundaries i); [reflexivity|].
  set (prev := at_ lowerWord (i - 1)).
  set (curr := at_ lowerWord i).
  set (next := at_ lowerWord (i + 1)).
  rewrite (ochar_eqb_sym curr prev).
  destruct (isVowel prev) eqn:Vp.
  - rewrite (isConsonant_not_vowel prev Vp). simpl.
    destruct (isConsonant curr && truthy next && isVowel next); reflexivity.
  - simpl. destruct (isConsonant prev); simpl; [|reflexivity].
    destruct (isConsonant curr); simpl.
    + destruct (ochar_eqb prev curr); simpl.
      * now destruct (negb (ochar_eqb prev (Some 115%N))).
      * cbn. destruct (isClusterLoop _ _); simpl; [reflexivity|].
        now destruct (someVowel _ && someVowel _).
    + destruct (ochar_eqb prev curr); simpl; [|reflexivity].
      now destruct (negb (ochar_eqb prev (Some 115%N))).
Qed.

Lemma interiorRule_sameView (t t' : Tables) (lowerWord : str) (i : Z) :
  sameView t t' ->
  interiorRule (INSEPARABLE_CLUSTERS t') lowerWord i
  = interiorRule (INSEPARABLE_CLUSTERS t) lowerWord i.
Proof.
  intros (_ & _ & HC). unfold interiorRule, ruleCC.
  rewrite <- (isClusterLoop_sort (INSEPARABLE_CLUSTERS t)).
  rewrite <- (isClusterLoop_sort (INSEPARABLE_CLUSTERS t')).
  now rewrite HC.
Qed.

Lemma push_In (a : list Z) (x b : Z) : In b (push a x) <-> In b a \/ b = x.
Proof.
  unfold push. rewrite in_app_iff. simpl. intuition congruence.
Qed.

Lemma scanBody_In (lowerWord : str) (boundaries : list Z) (i : Z)
      (t : Tables) (b : Z) :
  In b (fst (scanBody lowerWord boundaries i t))
  <-> In b boundaries
      \/ (b = i /\ interiorRule (INSEPARABLE_CLUSTERS t) lowerWord i = true).
Proof.
  rewrite scanBody_value.
  destruct (arr_includes boundaries i) eqn:E.
  - apply arr_includes_In in E. split; [now left|].
    intros [H|[-> _]]; assumption.
  - destruct (interiorRule _ _ _).
    + rewrite push_In. intuition.
    + intuition discriminate.
Qed.

Lemma scanBody_NoDup (lowerWord : str) (boundaries : list Z) (i : Z)
      (t : Tables) :
  NoDup boundaries -> NoDup (fst (scanBody lowerWord boundaries i t)).
Proof.
  intros H. rewrite scanBody_value.
  destruct (arr_includes boundaries i) eqn:E; [exact H|].
  destruct (interiorRule _ _ _); [|exact H].
  unfold push. apply NoDup_app; [exact H|repeat constructor; intros []|].
  intros x Hx [<-|[]].
  apply arr_includes_In in Hx. congruence.
Qed.

(** The interior loop over the offsets [l]: what was there stays, and an
    offset of [l] comes in exactly when one of the rules holds there. *)
Lemma foldM_scan_In (lowerWord : str) (l : list Z) :
  forall (boundaries : list Z) (t : Tables) (b : Z),
    In b (fst (foldM (scanBody lowerWord) l boundaries t))
    <-> In b boundaries
        \/ (In b l
            /\ interiorRule (INSEPARABLE_CLUSTERS t) lowerWord b = true).
Proof.
  induction l as [|x l IH]; intros bs t b; simpl.
  - intuition.
  - unfold bind.
    pose proof (scanBody_In lowerWord bs x t b) as Hx.
    pose proof (proj1 (wb_scanBody lowerWord bs x) t) as Ev.
    destruct (scanBody lowerWord bs x t) as [bs1 t1]. simpl in *.
    rewrite IH, Hx.
    rewrite (interiorRule_sameView t t1 lowerWord b (evolves_sameView _ _ Ev)).
    split.
    + intros [[H|[-> H]]|[H1 H2]]; auto.
    + intros [H|[[<-|H1] H2]]; auto.
Qed.

Lemma foldM_scan_NoDup (lowerWord : str) (l : list Z) :
  forall (boundaries : list Z) (t : Tables),
    NoDup boundaries ->
    NoDup (fst (foldM (scanBody lowerWord) l boundaries t)).
Proof.
  induction l as [|x l IH]; intros bs t H; simpl; [exact H|].
  unfold bind.
  pose proof (scanBody_NoDup lowerWord bs x t H) as Hx.
  destruct (scanBody lowerWord bs x t) as [bs1 t1]. simpl in *.
  now apply IH.
Qed.

Lemma range_In (a c b : Z) : In b (range a c) <-> a <= b < c.
Proof.
  unfold range. rewrite in_map_iff. split.
  - intros (k & <- & Hk). apply in_seq in Hk. lia.
  - intros H. exists (Z.to_nat (b - a)). split; [lia|].
    apply in_seq. lia.
Qed.

(** The prefix loop stops at the first entry that passes its test. *)
Lemma prefixLoop_find (ps : list str) (word lowerWord : str)
      (boundaries : list Z) :
  prefixLoop ps word lowerWord boundaries
  = match find (prefixTest word lowerWord) ps with
    | Some prefix => (len prefix, push boundaries (len prefix))
    | None => (0, boundaries)
    end.
Proof.
  induction ps as [|p ps IH]; simpl; [reflexivity|].
  unfold prefixTest at 1.
  destruct (startsWith lowerWord p && (len word >? len p + 2)); simpl.
  - destruct ((len (sliceFrom lowerWord (len p)) >? 0) && _);
      [reflexivity|exact IH].
  - exact IH.
Qed.

Lemma sorted_NoDup_strict (l : list Z) :
  StronglySorted (before ascending) l -> NoDup l -> StronglySorted Z.lt l.
Proof.
  induction 1 as [|x l Hl IH Hx]; intros Hnd; [constructor|].
  inversion Hnd as [|? ? Hnin Hnd']; subst.
  constructor; [now apply IH|].
  rewrite Forall_forall in *. intros y Hy.
  specialize (Hx y Hy). unfold before, ascending in Hx.
  assert (x <> y) by (intros ->; contradiction). lia.
Qed.

(** The steps of [findSyllableBoundaries] on a word of 4 code units or
    more, named. *)
Lemma findSyllableBoundaries_steps (word : str) (t : Tables) :
  (len word <? 4) = false ->
  let lowerWord := toLowerCase word in
  let pre := prefixLoop (sort byLengthDesc (PREFIXES t)) word lowerWord [] in
  let suffixStart :=
    suffixLoop (sort byLengthDesc (SUFFIXES t)) word lowerWord in
  let t2 := mkTables (sort byLengthDesc (PREFIXES t))
                     (sort byLengthDesc (SUFFIXES t))
                     (INSEPARABLE_CLUSTERS t) in
  let scanned :=
    fst (foldM (scanBody lowerWord) (range (fst pre + 1) (suffixStart - 1))
               (snd pre) t2) in
  fst (findSyllableBoundaries word t)
  = sort ascending
      (if (suffixStart <? len word) && negb (arr_includes scanned suffixStart)
       then if suffixStart >? 1 then push scanned suffixStart else scanned
       else scanned).
Proof.
  intros H4. cbv zeta. unfold findSyllableBoundaries. rewrite H4.
  unfold bind. simpl.
  destruct (prefixLoop _ _ _ _) as [prefixEnd bs]. simpl.
  destruct (foldM _ _ _ _) as [bs' t']. reflexivity.
Qed.

Lemma sort_In {A : Type} (cmp : A -> A -> Z) (l : list A) (x : A) :
  In x (sort cmp l) <-> In x l.
Proof.
  split; apply Permutation_in;
    [apply sort_perm|apply Permutation_sym, sort_perm].
Qed.

Lemma findSyllableBoundaries_short (word : str) (t : Tables) :
  (len word <? 4) = true -> findSyllableBoundaries word t = ([], t).
Proof. intros H. unfold findSyllableBoundaries. now rewrite H. Qed.

(** Which offsets [findSyllableBoundaries] returns. *)
Lemma findSyllableBoundaries_In (word : str) (t : Tables) (b : Z) :
  let lowerWord := toLowerCase word in
  let pre := prefixLoop (sort byLengthDesc (PREFIXES t)) word lowerWord [] in
  let suffixStart :=
    suffixLoop (sort byLengthDesc (SUFFIXES t)) word lowerWord in
  In b (fst (findSyllableBoundaries word t))
  <-> 4 <= len word
      /\ (In b (snd pre)
          \/ (fst pre + 1 <= b < suffixStart - 1
              /\ interiorRule (INSEPARABLE_CLUSTERS t) lowerWord b = true)
          \/ (b = suffixStart /\ 1 < suffixStart < len word)).
Proof.
  cbv zeta. destruct (Z.ltb_spec (len word) 4) as [Hlt|Hge].
  - rewrite findSyllableBoundaries_short by now apply Z.ltb_lt.
    simpl. split; [intros []|intros [? _]; lia].
  - rewrite findSyllableBoundaries_steps by now apply Z.ltb_ge.
    cbv zeta. rewrite sort_In.
    set (lowerWord := toLowerCase word).
    set (pre := prefixLoop _ word lowerWord []).
    set (suffixStart := suffixLoop _ word lowerWord).
    set (scanned := fst (foldM _ _ _ _)).
    assert (Hs : forall x, In x scanned
                 <-> In x (snd pre)
                     \/ (fst pre + 1 <= x < suffixStart - 1
                         /\ interiorRule (INSEPARABLE_CLUSTERS t) lowerWord x
                            = true)).
    { intros x. unfold scanned. rewrite foldM_scan_In, range_In.
      reflexivity. }
    destruct (Z.ltb_spec suffixStart (len word)) as [H1|H1]; simpl.
    + destruct (arr_includes scanned suffixStart) eqn:E; simpl.
      * apply arr_includes_In in E. rewrite Hs. split.
        -- intros H. split; [lia|]. tauto.
        -- intros [_ [H|[H|[-> _]]]]; [tauto|tauto|]. now apply Hs.
      * destruct (Z.gtb_spec suffixStart 1) as [H2|H2].
        -- rewrite push_In, Hs. split.
           ++ intros [H| ->]; (split; [lia|]); [tauto|].
              right. right. split; [reflexivity|lia].
           ++ intros [_ [H|[H|[-> _]]]]; tauto.
        -- rewrite Hs. split.
           ++ intros H. split; [lia|]. tauto.
           ++ intros [_ [H|[H|[_ H]]]]; [tauto|tauto|lia].
    + rewrite Hs. split.
      * intros H. split; [lia|]. tauto.
      * intros [_ [H|[H|[_ H]]]]; [tauto|tauto|lia].
Qed.

Lemma findSyllableBoundaries_NoDup (word : str) (t : Tables) :
  NoDup (fst (findSyllableBoundaries word t)).
Proof.
  destruct (Z.ltb_spec (len word) 4) as [Hlt|Hge].
  - rewrite findSyllableBoundaries_short by now apply Z.ltb_lt. constructor.
  - rewrite findSyllableBoundaries_steps by now apply Z.ltb_ge.
    cbv zeta.
    eapply Permutation_NoDup; [apply Permutation_sym, sort_perm|].
    set (lowerWord := toLowerCase word).
    set (pre := prefixLoop _ word lowerWord []).
    set (suffixStart := suffixLoop _ word lowerWord).
    set (scanned := fst (foldM _ _ _ _)).
    assert (Hn : NoDup scanned).
    { apply foldM_scan_NoDup. unfold pre. rewrite prefixLoop_find.
      destruct (find _ _); simpl; repeat constructor. intros []. }
    destruct (suffixStart <? len word); simpl; [|exact Hn].
    destruct (arr_includes scanned suffixStart) eqn:E; simpl; [exact Hn|].
    destruct (suffixStart >? 1); [|exact Hn].
    unfold push. apply NoDup_app; [exact Hn|repeat constructor; intros []|].
    intros x Hx [<-|[]]. apply arr_includes_In in Hx. congruence.
Qed.

Lemma findSyllableBoundaries_strict (word : str) (t : Tables) :
  StronglySorted Z.lt (fst (findSyllableBoundaries word t)).
Proof.
  apply sorted_NoDup_strict;
    [apply findSyllableBoundaries_sorted|apply findSyllableBoundaries_NoDup].
Qed.

(** ** Where the boundaries lie *)

Lemma suffixLoop_le (ss : list str) (word lowerWord : str) :
  suffixLoop ss word lowerWord <= len word.
Proof.
  rewrite suffixLoop_find. destruct (find _ _) as [s|]; [|lia].
  pose proof (len_nonneg s). lia.
Qed.

Lemma boundaries_bounds (word : str) (t : Tables) :
  Forall (fun p => 1 <= len p) (PREFIXES t) ->
  Forall (fun s => 2 <= len s) (SUFFIXES t) ->
  Forall (fun b => 1 <= b <= len word - 2)
         (fst (findSyllableBoundaries word t)).
Proof.
  intros HP HS. rewrite Forall_forall in *. intros b Hb.
  apply findSyllableBoundaries_In in Hb. cbv zeta in Hb.
  destruct Hb as [H4 Hb].
  set (lowerWord := toLowerCase word) in *.
  pose proof (suffixLoop_le (sort byLengthDesc (SUFFIXES t)) word lowerWord)
    as Hle.
  rewrite prefixLoop_find in Hb.
  assert (Hpre : match find (prefixTest word lowerWord)
                         (sort byLengthDesc (PREFIXES t)) with
                 | Some p => 1 <= len p <= len word - 3
                 | None => True
                 end).
  { destruct (find _ _) as [p|] eqn:F; [|exact I].
    apply find_some in F. destruct F as [Hin Ht].
    apply sort_In in Hin. specialize (HP p Hin).
    unfold prefixTest in Ht. rewrite !andb_true_iff in Ht.
    destruct Ht as [[_ Hl] _]. apply Z.gtb_gt in Hl. lia. }
  destruct Hb as [Hb|[[Hb _]|[-> Hb]]].
  - destruct (find _ _) as [p|]; simpl in Hb; [|destruct Hb].
    destruct Hb as [<-|[]]. lia.
  - destruct (find _ _) as [p|]; simpl in Hb; lia.
  - split; [lia|]. revert Hb. rewrite suffixLoop_find.
    destruct (find _ (sort byLengthDesc (SUFFIXES t))) as [s|] eqn:F; [|lia].
    apply find_some in F. destruct F as [Hin _].
    apply sort_In in Hin. specialize (HS s Hin). lia.
Qed.

Lemma tables_entry_lengths (calls : list Call) :
  let t := tablesAfter calls initialTables in
  Forall (fun p => 1 <= len p) (PREFIXES t)
  /\ Forall (fun s => 2 <= len s) (SUFFIXES t).
Proof.
  cbv zeta.
  destruct (tablesAfter_evolves calls initialTables) as (HP & HS & _).
  assert (P0 : Forall (fun p => 1 <= len p) PREFIXES0).
  { apply Forall_forall. intros p Hp.
    assert (E : forallb (fun p => 1 <=? len p) PREFIXES0 = true)
      by (vm_compute; reflexivity).
    rewrite forallb_forall in E. apply Z.leb_le. now apply E. }
  assert (S0 : Forall (fun s => 2 <= len s) SUFFIXES0).
  { apply Forall_forall. intros s Hs.
    assert (E : forallb (fun s => 2 <=? len s) SUFFIXES0 = true)
      by (vm_compute; reflexivity).
    rewrite forallb_forall in E. apply Z.leb_le. now apply E. }
  split.
  - destruct HP as [->| ->]; [exact P0|].
    eapply Permutation_Forall; [apply Permutation_sym, sort_perm|exact P0].
  - destruct HS as [->| ->]; [exact S0|].
    eapply Permutation_Forall; [apply Permutation_sym, sort_perm|exact S0].
Qed.

(** ** The markers of a word that passes the guards *)

Lemma passesGuards_run (word : str) (t : Tables) :
  passesGuards word = true ->
  hyphenateWord word t
  = (insertLoop word (fst (findSyllableBoundaries word t)),
     snd (findSyllableBoundaries word t)).
Proof.
  unfold passesGuards, hyphenateWord. rewrite !andb_true_iff.
  intros [[G1 G2] G3]. apply negb_true_iff in G1, G2.
  rewrite G1, G2, G3. simpl. unfold bind.
  destruct (findSyllableBoundaries word t) as [bs t1]. simpl.
  destruct bs; reflexivity.
Qed.

Lemma passesGuards_unmarked (word : str) :
  passesGuards word = true -> ~ In SOFT_HYPHEN word.
Proof.
  unfold passesGuards. rewrite !andb_true_iff.
  intros [[_ G2] _]. apply negb_true_iff, orb_false_elim in G2.
  now apply unmarked_not_In.
Qed.

Lemma not_passesGuards_run (word : str) (t : Tables) :
  passesGuards word = false -> hyphenateWord word t = (word, t).
Proof.
  unfold passesGuards, hyphenateWord.
  destruct (len word <? 5); [reflexivity|].
  destruct (_ || _); [reflexivity|].
  now destruct (isAlphabetic word).
Qed.

Lemma len_insert (r : str) (n : nat) :
  len (firstn n r ++ SOFT_HYPHEN :: skipn n r) = len r + 1.
Proof.
  rewrite <- (firstn_skipn n r) at 3. rewrite !len_app.
  unfold len. simpl List.length. lia.
Qed.

Section ExactMarkers.
Variable w : str.
Hypothesis w_unmarked : ~ In SOFT_HYPHEN w.

(** Inserting at [d] into a result that agrees with [w] up to [q], for
    [d <= q]. *)
Lemma marker_step (r tl : str) (q d : Z) (offs : list Z) :
  0 <= d <= q -> q <= len w ->
  r = firstn (Z.to_nat q) w ++ tl ->
  markerOffsets tl (skipn (Z.to_nat q) w) q = offs ->
  exists tl' : str,
    firstn (Z.to_nat d) r ++ SOFT_HYPHEN :: skipn (Z.to_nat d) r
    = firstn (Z.to_nat d) w ++ tl'
    /\ markerOffsets tl' (skipn (Z.to_nat d) w) d = d :: offs.
Proof.
  intros Hd Hq Hr Hoffs.
  assert (Hn : (Z.to_nat d <= Z.to_nat q)%nat) by lia.
  assert (Hlen : (Z.to_nat q <= List.length w)%nat) by (unfold len in Hq; lia).
  set (mid := skipn (Z.to_nat d) (firstn (Z.to_nat q) w)).
  exists (SOFT_HYPHEN :: mid ++ tl).
  assert (Hz : (Z.to_nat d - Z.to_nat q = 0)%nat) by lia.
  split.
  - rewrite Hr. rewrite firstn_app, skipn_app.
    rewrite firstn_firstn, Nat.min_l by exact Hn.
    rewrite length_firstn, Nat.min_l by exact Hlen.
    rewrite Hz. simpl. now rewrite app_nil_r.
  - assert (Hw : skipn (Z.to_nat d) w = mid ++ skipn (Z.to_nat q) w).
    { rewrite <- (firstn_skipn (Z.to_nat q) w) at 1.
      rewrite skipn_app.
      rewrite length_firstn, Nat.min_l by exact Hlen.
      now rewrite Hz. }
    rewrite markerOffsets_marker.
    + f_equal. rewrite Hw, markerOffsets_app. rewrite <- Hoffs. f_equal.
      unfold mid, len. rewrite length_skipn, length_firstn.
      rewrite Nat.min_l by exact Hlen. lia.
    + intros Hin. apply w_unmarked.
      rewrite <- (firstn_skipn (Z.to_nat d) w).
      apply in_or_app. now right.
Qed.

Lemma insert_exact (l : list Z) :
  StronglySorted (before ascending) l ->
  Forall (fun b => b <= len w - 2) l ->
  exists (q : Z) (tl : str),
    let result := fold_right (fun pos r => insertStep r pos) w l in
    0 <= q <= len w
    /\ (q = len w \/ In q l)
    /\ result = firstn (Z.to_nat q) w ++ tl
    /\ markerOffsets tl (skipn (Z.to_nat q) w) q
       = filter (fun b => 2 <=? b) l
    /\ len result = len w + arr_length (filter (fun b => 2 <=? b) l).
Proof.
  induction 1 as [|d l Hl IH Hd]; intros Hb.
  - exists (len w), []. cbn zeta. simpl.
    pose proof (len_nonneg w).
    split; [lia|]. split; [now left|]. split.
    + rewrite app_nil_r. symmetry. apply firstn_all2. unfold len. lia.
    + split; [reflexivity|unfold arr_length; simpl; lia].
  - inversion Hb as [|? ? Hd2 Hb']; subst.
    destruct (IH Hb') as (q & tl & Hq & Hcase & Hr & Hoffs & Hlenr).
    cbn zeta in *. cbn [fold_right filter].
    set (r := fold_right (fun pos r => insertStep r pos) w l) in *.
    assert (Hdq : d <= q).
    { destruct Hcase as [->|Hin]; [lia|].
      rewrite Forall_forall in Hd. specialize (Hd q Hin).
      unfold before, ascending in Hd. lia. }
    assert (Hk : 0 <= arr_length (filter (fun b => 2 <=? b) l))
      by (unfold arr_length; lia).
    destruct (Z.leb_spec 2 d) as [H2|H2].
    + rewrite insertStep_inserted.
      2:{ apply andb_true_intro. split; [apply Z.geb_le|apply Z.leb_le]; lia. }
      destruct (marker_step r tl q d _ ltac:(lia) ltac:(lia) Hr Hoffs)
        as (tl' & Hr' & Hoffs').
      exists d, tl'. split; [lia|]. split; [right; now left|].
      split; [exact Hr'|]. split; [exact Hoffs'|].
      rewrite len_insert, Hlenr. unfold arr_length. simpl List.length. lia.
    + assert (E : insertStep r d = r).
      { unfold insertStep. destruct (Z.geb_spec d 2); [lia|reflexivity]. }
      rewrite E. exists q, tl. split; [exact Hq|]. split.
      * destruct Hcase; [now left|right; now right].
      * repeat split; assumption.
Qed.

Lemma insertLoop_exact (l : list Z) :
  StronglySorted (before ascending) l ->
  Forall (fun b => b <= len w - 2) l ->
  markerOffsets (insertLoop w l) w 0 = filter (fun b => 2 <=? b) l
  /\ len (insertLoop w l) = len w + arr_length (filter (fun b => 2 <=? b) l).
Proof.
  intros Hl Hb.
  destruct (insert_exact l Hl Hb) as (q & tl & Hq & _ & Hr & Hoffs & Hlen).
  cbn zeta in *. unfold insertLoop.
  rewrite <- fold_left_rev_right, rev_involutive.
  split; [|exact Hlen].
  rewrite Hr. rewrite <- (firstn_skipn (Z.to_nat q) w) at 2.
  rewrite markerOffsets_app.
  replace (0 + len (firstn (Z.to_nat q) w)) with q; [exact Hoffs|].
  unfold len in *. rewrite length_firstn, Nat.min_l by lia. lia.
Qed.
End ExactMarkers.

Lemma findSyllableBoundaries_store (word : str) (t : Tables) :
  (len word <? 4) = false ->
  PREFIXES (snd (findSyllableBoundaries word t))
  = sort byLengthDesc (PREFIXES t)
  /\ SUFFIXES (snd (findSyllableBoundaries word t))
     = sort byLengthDesc (SUFFIXES t)
  /\ keptOrSorted (INSEPARABLE_CLUSTERS t)
                  (INSEPARABLE_CLUSTERS (snd (findSyllableBoundaries word t))).
Proof.
  intros H4. unfold findSyllableBoundaries. rewrite H4.
  unfold bind. simpl.
  destruct (prefixLoop _ _ _ _) as [prefixEnd bs]. simpl.
  match goal with
  | |- context [foldM ?f ?l ?b ?t2] =>
      pose proof (proj1 (wb_foldM f l (wb_scanBody (toLowerCase word)) b) t2)
        as Ev;
      destruct (foldM f l b t2) as [bs' t']
  end.
  simpl in *. destruct Ev as (HP & HS & HC). simpl in *.
  repeat split.
  - destruct HP as [->| ->]; [reflexivity|apply sortLen_idem].
  - destruct HS as [->| ->]; [reflexivity|apply sortLen_idem].
  - exact HC.
Qed.

(** ** Properties of [findSyllableBoundaries] and [hyphenateWord] *)

(** X1: the value of a call of [hyphenateWord] or [hyphenateText] does not
    depend on the calls made before it, although those calls sort the
    tables: it is the value the call has in the freshly loaded module. *)
Theorem X1_value_independent_of_history :
  forall (calls : list Call) (c : Call) (t : Tables),
    fst (runCall c (tablesAfter calls t)) = fst (runCall c t).
Proof.
  intros calls c t. apply value_any_time, wb_runCall.
Qed.

(** X2: at any point of the life of the module, the offsets that
    [findSyllableBoundaries] returns are strictly increasing (no offset
    twice) and lie between 1 and the length of the word minus 2. *)
Theorem X2_boundaries_increasing_in_range :
  forall (calls : list Call) (word : str),
    let t := tablesAfter calls initialTables in
    StronglySorted Z.lt (fst (findSyllableBoundaries word t))
    /\ Forall (fun b => 1 <= b <= len word - 2)
              (fst (findSyllableBoundaries word t)).
Proof.
  intros calls word t. split.
  - apply findSyllableBoundaries_strict.
  - destruct (tables_entry_lengths calls) as [HP HS].
    now apply boundaries_bounds.
Qed.

(** X3: the offsets that [findSyllableBoundaries] returns, in any store:
    none for a word of fewer than 4 code units; otherwise the offset the
    prefix loop pushed, the offsets strictly between [prefixEnd] and
    [suffixStart - 1] at which the V-CV rule, the consonant-consonant rule
    or the doubled-consonant rule holds, and [suffixStart] when a suffix
    was found and it is more than 1. *)
Theorem X3_boundaries_characterised :
  forall (word : str) (t : Tables) (b : Z),
    let lowerWord := toLowerCase word in
    let pre := prefixLoop (sort byLengthDesc (PREFIXES t)) word lowerWord [] in
    let prefixEnd := fst pre in
    let suffixStart :=
      suffixLoop (sort byLengthDesc (SUFFIXES t)) word lowerWord in
    In b (fst (findSyllableBoundaries word t))
    <-> 4 <= len word
        /\ (In b (snd pre)
            \/ (prefixEnd + 1 <= b < suffixStart - 1
                /\ interiorRule (INSEPARABLE_CLUSTERS t) lowerWord b = true)
            \/ (b = suffixStart /\ 1 < suffixStart < len word)).
Proof.
  intros word t b. apply findSyllableBoundaries_In.
Qed.

(** X4: at any point of the life of the module, a word that passes the
    guards of [hyphenateWord] gets one marker at each boundary found except
    offset 1, and nowhere else; the result is longer than the word by the
    number of these boundaries. *)
Theorem X4_markers_are_boundaries_from_2 :
  forall (calls : list Call) (w : str),
    passesGuards w = true ->
    let t := tablesAfter calls initialTables in
    let kept := filter (fun b => 2 <=? b) (fst (findSyllableBoundaries w t)) in
    markerOffsets (fst (hyphenateWord w t)) w 0 = kept
    /\ len (fst (hyphenateWord w t)) = len w + arr_length kept.
Proof.
  intros calls w G t kept. rewrite passesGuards_run by exact G. simpl.
  apply insertLoop_exact.
  - now apply passesGuards_unmarked.
  - apply findSyllableBoundaries_sorted.
  - destruct (tables_entry_lengths calls) as [HP HS].
    eapply Forall_impl; [|apply (boundaries_bounds w _ HP HS)].
    intros b Hb. simpl in Hb. lia.
Qed.

(** "ELEFANT" has the boundaries 1 and 3 and gets its marker at 3. *)
Lemma X4_markers_are_boundaries_from_2_witness :
  markerOffsets (fst (hyphenateWord (lit "ELEFANT") initialTables))
                (lit "ELEFANT") 0
  = filter (fun b => 2 <=? b)
           (fst (findSyllableBoundaries (lit "ELEFANT") initialTables))
  /\ len (fst (hyphenateWord (lit "ELEFANT") initialTables))
     = len (lit "ELEFANT")
       + arr_length
           (filter (fun b => 2 <=? b)
              (fst (findSyllableBoundaries (lit "ELEFANT") initialTables))).
Proof.
  apply (X4_markers_are_boundaries_from_2 [] (lit "ELEFANT")).
  vm_compute. reflexivity.
Defined.

(** X5: what a call of [hyphenateWord] does to the store. A word that
    passes the guards leaves [PREFIXES] and [SUFFIXES] sorted longest-first
    and [INSEPARABLE_CLUSTERS] as it was or sorted; a word that a guard
    returns leaves the store untouched. *)
Theorem X5_store_after_hyphenateWord :
  forall (w : str) (t : Tables),
    let t' := snd (hyphenateWord w t) in
    if passesGuards w
    then PREFIXES t' = sort byLengthDesc (PREFIXES t)
         /\ SUFFIXES t' = sort byLengthDesc (SUFFIXES t)
         /\ keptOrSorted (INSEPARABLE_CLUSTERS t) (INSEPARABLE_CLUSTERS t')
    else t' = t.
Proof.
  intros w t t'. unfold t'. destruct (passesGuards w) eqn:G.
  - rewrite passesGuards_run by exact G. simpl.
    apply findSyllableBoundaries_store.
    unfold passesGuards in G. rewrite !andb_true_iff in G.
    destruct G as [[G1 _] _]. apply negb_true_iff, Z.ltb_ge in G1.
    apply Z.ltb_ge. lia.
  - now rewrite not_passesGuards_run.
Qed.

(** ** Lower case *)

(** Every code unit is below 256 or left alone by [lowerChar]. *)
Lemma lowerChar_cases (c : char) : (c < 256)%N \/ lowerChar c = c.
Proof.
  destruct (N.ltb_spec c 256) as [H|H]; [now left|right].
  unfold lowerChar.
  destruct (N.leb_spec 65 c), (N.leb_spec c 90); simpl; try lia.
  destruct (N.leb_spec 192 c), (N.leb_spec c 222); simpl; lia.
Qed.

Lemma below_256 (P : char -> bool) :
  forallb P (map N.of_nat (seq 0 256)) = true ->
  forall c : char, (c < 256)%N -> P c = true.
Proof.
  intros H c Hc. rewrite forallb_forall in H. apply H.
  apply in_map_iff. exists (N.to_nat c). split; [lia|].
  apply in_seq. lia.
Qed.

(** A fact about [lowerChar c] that holds when [lowerChar] leaves [c]
    alone and on each of the 256 code units it can change. *)
Ltac by_lowerChar_cases c :=
  destruct (lowerChar_cases c) as [Hlow|Hlow];
  [ revert c Hlow;
    match goal with
    | |- forall c : char, (c < 256)%N -> ?l = ?r =>
        intros c Hlow;
        apply (below_256 (fun c => Bool.eqb l r)) in Hlow;
        [ now apply Bool.eqb_prop in Hlow | vm_compute; reflexivity ]
    end
  | now rewrite Hlow ].

Lemma isGermanLetter_lowerChar (c : char) :
  isGermanLetter (lowerChar c) = isGermanLetter c.
Proof. by_lowerChar_cases c. Qed.

Lemma isHyphen_lowerChar (c : char) :
  char_eqb HYPHEN_MINUS (lowerChar c) = char_eqb HYPHEN_MINUS c.
Proof. by_lowerChar_cases c. Qed.

Lemma isSoftHyphen_lowerChar (c : char) :
  char_eqb SOFT_HYPHEN (lowerChar c) = char_eqb SOFT_HYPHEN c.
Proof. by_lowerChar_cases c. Qed.

Lemma lowerChar_idem (c : char) : lowerChar (lowerChar c) = lowerChar c.
Proof.
  destruct (lowerChar_cases c) as [Hlow|Hlow]; [|now rewrite !Hlow].
  apply N.eqb_eq.
  apply (below_256 (fun c => N.eqb (lowerChar (lowerChar c)) (lowerChar c)));
    [vm_compute; reflexivity|exact Hlow].
Qed.

Lemma toLowerCase_idem (s : str) : toLowerCase (toLowerCase s) = toLowerCase s.
Proof.
  unfold toLowerCase. rewrite map_map. apply map_ext, lowerChar_idem.
Qed.

Lemma at_sliceFrom_0 (s : str) (n : Z) :
  0 <= n <= len s -> at_ (sliceFrom s n) 0 = nth_error s (Z.to_nat n).
Proof.
  intros H. rewrite sliceFrom_skipn by exact H. unfold at_.
  change (0 <? 0) with false. cbv iota. change (Z.to_nat 0) with 0%nat.
  rewrite nth_error_skipn. f_equal. lia.
Qed.

Lemma len_sliceFrom (s : str) (n : Z) :
  0 <= n <= len s -> len (sliceFrom s n) = len s - n.
Proof.
  intros H. rewrite sliceFrom_skipn by exact H.
  unfold len in *. rewrite length_skipn. lia.
Qed.

Lemma letter_vowel_or_consonant (c : char) :
  isLetterIgnoreCase c = true ->
  isVowel (Some c) || isConsonant (Some c) = true.
Proof.
  intros H. unfold isConsonant. rewrite H.
  now destruct (isVowel (Some c)).
Qed.

Lemma isAlphabetic_letters (word : str) (c : char) :
  isAlphabetic word = true -> In c (toLowerCase word) ->
  isLetterIgnoreCase c = true.
Proof.
  intros H Hc. unfold toLowerCase in Hc. apply in_map_iff in Hc.
  destruct Hc as (x & <- & Hx).
  change (isGermanLetter (lowerChar x) = true).
  rewrite isGermanLetter_lowerChar.
  destruct word as [|y word]; [destruct Hx|].
  unfold isAlphabetic in H. rewrite forallb_forall in H. now apply H.
Qed.

(** On a word of German letters, the second test of the prefix loop (a
    letter follows the prefix) always succeeds. *)
Lemma prefixTest_alphabetic (word prefix : str) :
  isAlphabetic word = true ->
  prefixTest word (toLowerCase word) prefix
  = startsWith (toLowerCase word) prefix && (len word >? len prefix + 2).
Proof.
  intros Ha. unfold prefixTest.
  destruct (startsWith (toLowerCase word) prefix); [|reflexivity].
  destruct (Z.gtb_spec (len word) (len prefix + 2)) as [H|H];
    [|reflexivity].
  simpl. pose proof (len_nonneg prefix) as Hp.
  pose proof (len_toLowerCase word) as Hl.
  rewrite len_sliceFrom, at_sliceFrom_0 by lia.
  destruct (Z.gtb_spec (len (toLowerCase word) - len prefix) 0); [|lia].
  simpl.
  destruct (nth_error (toLowerCase word) (Z.to_nat (len prefix))) as [c|] eqn:E.
  - apply letter_vowel_or_consonant, (isAlphabetic_letters word); [exact Ha|].
    eapply nth_error_In, E.
  - apply nth_error_None in E. unfold len in *. lia.
Qed.

Lemma findSyllableBoundaries_prefix (word : str) (t : Tables) (longest : str) :
  4 <= len word ->
  find (prefixTest word (toLowerCase word)) (sort byLengthDesc (PREFIXES t))
  = Some longest ->
  prefixLoop (sort byLengthDesc (PREFIXES t)) word (toLowerCase word) []
  = (len longest, [len longest])
  /\ In (len longest) (fst (findSyllableBoundaries word t)).
Proof.
  intros H4 F.
  assert (E : prefixLoop (sort byLengthDesc (PREFIXES t)) word
                         (toLowerCase word) []
              = (len longest, [len longest]))
    by (rewrite prefixLoop_find, F; reflexivity).
  split; [exact E|].
  apply findSyllableBoundaries_In. cbv zeta. split; [exact H4|].
  left. rewrite E. now left.
Qed.

(** X6: for a word that passes the guards of [hyphenateWord] and whose
    lower-cased form starts with a known prefix that leaves more than two
    characters after it, the prefix loop sets [prefixEnd] to the length of
    the longest such prefix and pushes it, and that offset is in the array
    returned. *)
Theorem X6_prefix_boundary :
  forall (word : str) (t : Tables) (prefix : str),
    5 <= len word ->
    isAlphabetic word = true ->
    In prefix (PREFIXES t) ->
    startsWith (toLowerCase word) prefix = true ->
    len prefix + 2 < len word ->
    exists longest : str,
      In longest (PREFIXES t)
      /\ startsWith (toLowerCase word) longest = true
      /\ len longest + 2 < len word
      /\ (forall p : str,
            In p (PREFIXES t) ->
            startsWith (toLowerCase word) p = true ->
            len p + 2 < len word -> len p <= len longest)
      /\ prefixLoop (sort byLengthDesc (PREFIXES t)) word (toLowerCase word) []
         = (len longest, [len longest])
      /\ In (len longest) (fst (findSyllableBoundaries word t)).
Proof.
  intros word t prefix H5 Ha Hin Hstarts Hlen.
  assert (Htest : forall p : str,
            prefixTest word (toLowerCase word) p = true
            <-> (startsWith (toLowerCase word) p = true
                 /\ len p + 2 < len word)).
  { intros p. rewrite prefixTest_alphabetic by exact Ha.
    rewrite andb_true_iff, Z.gtb_gt. intuition lia. }
  destruct (find_longest (prefixTest word (toLowerCase word))
              (sort byLengthDesc (PREFIXES t)) prefix)
    as (longest & Hfind & Hlin & Hlt & Hmax).
  - apply sort_sorted; [apply byLengthDesc_total|apply byLengthDesc_trans].
  - now apply sort_In.
  - apply Htest. auto.
  - apply Htest in Hlt. destruct Hlt as [Ls Ll].
    destruct (findSyllableBoundaries_prefix word t longest ltac:(lia) Hfind)
      as [Hloop Hb].
    exists longest. repeat split; try assumption.
    + now apply sort_In in Hlin.
    + intros p Hp Hps Hpl. apply Hmax; [now apply sort_In|].
      apply Htest. auto.
Qed.

(** "VERABREDUNG" starts with "ver". *)
Lemma X6_prefix_boundary_witness :
  exists longest : str,
    In longest (PREFIXES initialTables)
    /\ startsWith (toLowerCase (lit "VERABREDUNG")) longest = true
    /\ len longest + 2 < len (lit "VERABREDUNG")
    /\ (forall p : str,
          In p (PREFIXES initialTables) ->
          startsWith (toLowerCase (lit "VERABREDUNG")) p = true ->
          len p + 2 < len (lit "VERABREDUNG") -> len p <= len longest)
    /\ prefixLoop (sort byLengthDesc (PREFIXES initialTables))
                  (lit "VERABREDUNG") (toLowerCase (lit "VERABREDUNG")) []
       = (len longest, [len longest])
    /\ In (len longest)
          (fst (findSyllableBoundaries (lit "VERABREDUNG") initialTables)).
Proof.
  apply (X6_prefix_boundary (lit "VERABREDUNG") initialTables (lit "ver")).
  - vm_compute. discriminate.
  - vm_compute. reflexivity.
  - vm_compute. do 8 right. left. reflexivity.
  - vm_compute. reflexivity.
  - vm_compute. reflexivity.
Defined.

Lemma prefixLoop_len (ps : list str) (word word' lowerWord : str)
      (boundaries : list Z) :
  len word' = len word ->
  prefixLoop ps word' lowerWord boundaries
  = prefixLoop ps word lowerWord boundaries.
Proof.
  intros H. induction ps as [|p ps IH]; simpl; [reflexivity|].
  now rewrite H, IH.
Qed.

Lemma suffixLoop_len (ss : list str) (word word' lowerWord : str) :
  len word' = len word ->
  suffixLoop ss word' lowerWord = suffixLoop ss word lowerWord.
Proof.
  intros H. induction ss as [|s ss IH]; simpl; [exact H|].
  now rewrite H, IH.
Qed.

(** [findSyllableBoundaries] looks at the lower-cased word and at the
    length only. *)
Lemma findSyllableBoundaries_lower (word : str) (t : Tables) :
  findSyllableBoundaries (toLowerCase word) t = findSyllableBoundaries word t.
Proof.
  unfold findSyllableBoundaries.
  rewrite toLowerCase_idem, len_toLowerCase.
  destruct (len word <? 4); [reflexivity|].
  unfold bind. simpl.
  rewrite (prefixLoop_len _ word (toLowerCase word))
    by apply len_toLowerCase.
  destruct (prefixLoop _ _ _ _) as [prefixEnd bs]. simpl.
  rewrite (suffixLoop_len _ word (toLowerCase word))
    by apply len_toLowerCase.
  reflexivity.
Qed.

Lemma slice_toLowerCase (s : str) (a b : Z) :
  slice (toLowerCase s) a b = toLowerCase (slice s a b).
Proof.
  unfold slice. rewrite len_toLowerCase. cbv zeta.
  unfold toLowerCase. now rewrite skipn_map, firstn_map.
Qed.

Lemma insertStep_toLowerCase (r : str) (pos : Z) :
  insertStep (toLowerCase r) pos = toLowerCase (insertStep r pos).
Proof.
  unfold insertStep, sliceFrom.
  rewrite !slice_toLowerCase, len_toLowerCase.
  destruct ((pos >=? 2) && (pos <=? len r - 2)); [|reflexivity].
  unfold toLowerCase. now rewrite !map_app.
Qed.

Lemma insertLoop_toLowerCase (w : str) (bs : list Z) :
  insertLoop (toLowerCase w) bs = toLowerCase (insertLoop w bs).
Proof.
  unfold insertLoop. generalize (rev bs) as l. intros l. revert w.
  induction l as [|p l IH]; intros w; simpl; [reflexivity|].
  now rewrite insertStep_toLowerCase, IH.
Qed.

Lemma existsb_toLowerCase (f : char -> bool) (s : str) :
  (forall c, f (lowerChar c) = f c) ->
  existsb f (toLowerCase s) = existsb f s.
Proof.
  intros H. induction s as [|c s IH]; simpl; [reflexivity|].
  now rewrite H, IH.
Qed.

Lemma isAlphabetic_toLowerCase (s : str) :
  isAlphabetic (toLowerCase s) = isAlphabetic s.
Proof.
  assert (H : forallb isGermanLetter (toLowerCase s)
              = forallb isGermanLetter s).
  { induction s as [|d l IH]; simpl; [reflexivity|].
    now rewrite isGermanLetter_lowerChar, IH. }
  destruct s as [|c s]; [reflexivity|]. exact H.
Qed.

Lemma hyphenateWord_lower (w : str) (t : Tables) :
  hyphenateWord (toLowerCase w) t
  = (toLowerCase (fst (hyphenateWord w t)), snd (hyphenateWord w t)).
Proof.
  unfold hyphenateWord.
  rewrite len_toLowerCase, isAlphabetic_toLowerCase.
  rewrite (existsb_toLowerCase _ w isHyphen_lowerChar).
  rewrite (existsb_toLowerCase _ w isSoftHyphen_lowerChar).
  destruct (len w <? 5); [reflexivity|].
  destruct (_ || _); [reflexivity|].
  destruct (isAlphabetic w); [|reflexivity]. simpl.
  unfold bind. rewrite findSyllableBoundaries_lower.
  destruct (findSyllableBoundaries w t) as [bs t1].
  destruct (arr_length bs =? 0); simpl; [reflexivity|].
  now rewrite insertLoop_toLowerCase.
Qed.

(** X7: hyphenation ignores case and keeps it. For a word [w] of German
    letters, [hyphenateWord] on the lower-cased word gives the lower-cased
    result of [hyphenateWord] on [w], with the same effect on the store;
    and [findSyllableBoundaries] returns the same offsets for both. *)
Theorem X7_hyphenation_ignores_case :
  forall (w : str) (t : Tables),
    isAlphabetic w = true ->
    hyphenateWord (toLowerCase w) t
    = (toLowerCase (fst (hyphenateWord w t)), snd (hyphenateWord w t))
    /\ findSyllableBoundaries (toLowerCase w) t = findSyllableBoundaries w t.
Proof.
  intros w t _. split;
    [apply hyphenateWord_lower|apply findSyllableBoundaries_lower].
Qed.

(** "Hamburg" and "hamburg". *)
Lemma X7_hyphenation_ignores_case_witness :
  hyphenateWord (toLowerCase (lit "Hamburg")) initialTables
  = (toLowerCase (fst (hyphenateWord (lit "Hamburg") initialTables)),
     snd (hyphenateWord (lit "Hamburg") initialTables))
  /\ findSyllableBoundaries (toLowerCase (lit "Hamburg")) initialTables
     = findSyllableBoundaries (lit "Hamburg") initialTables.
Proof.
  apply (X7_hyphenation_ignores_case (lit "Hamburg") initialTables).
  vm_compute. reflexivity.
Defined.

(** ** [hyphenateText] piece by piece *)

(** The value of the [map] of [hyphenateText]: every piece hyphenated as
    in the store the call started with. *)
Lemma mapM_value {A : Type} (f : A -> State str) (l : list A) :
  (forall x, wellBehaved (f x)) ->
  forall t : Tables, fst (mapM f l t) = map (fun x => fst (f x t)) l.
Proof.
  intros Hf. induction l as [|x l IH]; intros t; simpl; [reflexivity|].
  unfold bind.
  pose proof (proj1 (Hf x) t) as Ev.
  destruct (f x t) as [y t1] eqn:E. simpl in Ev.
  specialize (IH t1). destruct (mapM f l t1) as [ys t2]. simpl in *.
  f_equal. rewrite IH. apply map_ext. intros z.
  symmetry. apply (proj2 (Hf z)). now apply evolves_sameView.
Qed.

Lemma hyphenateText_value (text : str) (t : Tables) :
  fst (hyphenateText text t)
  = join (map (fun part => fst (hyphenatePart part t)) (splitWs text)).
Proof.
  rewrite hyphenateText_parts. f_equal.
  apply mapM_value, wb_hyphenatePart.
Qed.

Lemma wordPiece_not_run (w : str) :
  wordPiece w = true -> isWhitespaceRun w = false.
Proof.
  destruct w as [|c w]; [reflexivity|].
  unfold wordPiece, isWhitespaceRun. simpl.
  intros H. apply andb_prop in H. destruct H as [H _].
  apply negb_true_iff in H. now rewrite H.
Qed.

Lemma hyphenatePart_word (w : str) (t : Tables) :
  wordPiece w = true -> hyphenatePart w t = hyphenateWord w t.
Proof.
  intros H. unfold hyphenatePart. now rewrite wordPiece_not_run.
Qed.

Lemma splitWs_word (w : str) : wordPiece w = true -> splitWs w = [w].
Proof.
  intros H. rewrite <- (splitWs_join [w] true) at 1.
  - unfold join. simpl. now rewrite app_nil_r.
  - now constructor.
Qed.

(** X8: a text without whitespace is one word: [hyphenateText] does to it
    (and to the store) what [hyphenateWord] does. *)
Theorem X8_hyphenateText_single_word :
  forall (w : str) (t : Tables),
    wordPiece w = true -> hyphenateText w t = hyphenateWord w t.
Proof.
  intros w t H. unfold hyphenateText. rewrite splitWs_word by exact H.
  simpl. unfold bind. rewrite hyphenatePart_word by exact H.
  destruct (hyphenateWord w t) as [r t1]. simpl. unfold join. simpl.
  now rewrite app_nil_r.
Qed.

(** "HAMBURG" has no whitespace. *)
Lemma X8_hyphenateText_single_word_witness :
  hyphenateText (lit "HAMBURG") initialTables
  = hyphenateWord (lit "HAMBURG") initialTables.
Proof.
  apply (X8_hyphenateText_single_word (lit "HAMBURG") initialTables).
  vm_compute. reflexivity.
Defined.

(** X9: [hyphenateText] works word by word. For two pieces [w1], [w2]
    without whitespace (either may be empty) and a whitespace run between
    them, the result is [hyphenateWord w1], the run, [hyphenateWord w2],
    each word hyphenated as it would be alone. *)
Theorem X9_hyphenateText_two_words :
  forall (w1 run w2 : str) (t : Tables),
    wordPiece w1 = true ->
    isWhitespaceRun run = true ->
    wordPiece w2 = true ->
    fst (hyphenateText (w1 ++ run ++ w2) t)
    = fst (hyphenateWord w1 t) ++ run ++ fst (hyphenateWord w2 t).
Proof.
  intros w1 run w2 t H1 Hr H2.
  assert (Hs : splitWs (w1 ++ run ++ w2) = [w1; run; w2]).
  { rewrite <- (splitWs_join [w1; run; w2] true) at 1.
    - unfold join. simpl. now rewrite app_nil_r.
    - constructor; [exact H1|now left|exact Hr|now constructor]. }
  rewrite hyphenateText_value, Hs. cbn [map].
  rewrite (hyphenatePart_word w1) by exact H1.
  rewrite (hyphenatePart_word w2) by exact H2.
  rewrite hyphenatePart_run by exact Hr.
  unfold join. cbn [List.concat fst]. now rewrite app_nil_r.
Qed.

(** "HAMBURG", a blank and a line feed, "ZEITUNG". *)
Lemma X9_hyphenateText_two_words_witness :
  fst (hyphenateText (lit "HAMBURG" ++ [32%N; 10%N] ++ lit "ZEITUNG")
                     initialTables)
  = fst (hyphenateWord (lit "HAMBURG") initialTables)
    ++ [32%N; 10%N] ++ fst (hyphenateWord (lit "ZEITUNG") initialTables).
Proof.
  apply (X9_hyphenateText_two_words
           (lit "HAMBURG") [32%N; 10%N] (lit "ZEITUNG") initialTables);
    vm_compute; reflexivity.
Defined.

Lemma hyphenatePart_twice (part : str) (t : Tables) :
  fst (hyphenatePart (fst (hyphenatePart part t)) t)
  = fst (hyphenatePart part t).
Proof.
  destruct (isWhitespaceRun part) eqn:E.
  - rewrite (hyphenatePart_run part t E). simpl.
    now rewrite (hyphenatePart_run part t E).
  - destruct (hyphenatePart_same_or_marked part t) as [H|M].
    + rewrite H. exact H.
    + pose proof (hyphenatePart_not_run part t E) as N.
      unfold hyphenatePart at 1. rewrite N.
      now rewrite hyphenateWord_marked.
Qed.

(** X10: [hyphenateText] is idempotent: applied to its own result, in the
    store the first call left behind, it gives that result again. *)
Theorem X10_hyphenateText_idempotent :
  forall (text : str) (t : Tables),
    fst (hyphenateText (fst (hyphenateText text t))
                       (snd (hyphenateText text t)))
    = fst (hyphenateText text t).
Proof.
  intros text t.
  rewrite <- (proj2 (wb_hyphenateText (fst (hyphenateText text t)))
                t (snd (hyphenateText text t)))
    by apply evolves_sameView, (proj1 (wb_hyphenateText text)).
  rewrite (hyphenateText_value (fst (hyphenateText text t)) t).
  rewrite hyphenateText_splitWs.
  rewrite (mapM_value _ _ wb_hyphenatePart).
  rewrite map_map, hyphenateText_value. f_equal.
  apply map_ext. intros part. apply hyphenatePart_twice.
Qed.

(** ** The caller *)



(** ** The game (utils/gameLogic.ts) *)

Lemma str_eqb_eq (a b : str) : str_eqb a b = true <-> a = b.
Proof.
  revert b. induction a as [|x a IH]; intros [|y b]; simpl;
    try (split; [discriminate|discriminate]); [tauto|].
  rewrite andb_true_iff. unfold char_eqb. rewrite N.eqb_eq, IH.
  split; [intros [-> ->]; reflexivity|intros H; injection H; auto].
Qed.

Lemma includesStr_In (a : list str) (w : str) :
  GameLogic.includesStr a w = true <-> In w a.
Proof.
  unfold GameLogic.includesStr. rewrite existsb_exists. split.
  - intros (x & Hx & E). apply str_eqb_eq in E. now subst.
  - intros H. exists w. split; [exact H|now apply str_eqb_eq].
Qed.

Lemma filter_all {A : Type} (f : A -> bool) (l : list A) :
  List.length (filter f l) = List.length l -> forall x, In x l -> f x = true.
Proof.
  induction l as [|y l IH]; simpl; [intros _ x []|].
  pose proof (filter_length_le f l) as Hle.
  destruct (f y) eqn:E; simpl; intros H x [<-|Hx]; try lia; auto.
Qed.

Import GameLogic.

Lemma checkGroupLoop_spec (selectedWords : list str) (groups : list Group) :
  match checkGroupLoop selectedWords groups with
  | (Some g, close) =>
      close = false /\ In g groups
      /\ arr_length (filter (fun w => setHas (words g) w) selectedWords)
         = WORDS_PER_GROUP
  | (None, true) =>
      exists g, In g groups
        /\ arr_length (filter (fun w => setHas (words g) w) selectedWords) = 3
  | (None, false) =>
      Forall (fun g =>
                arr_length (filter (fun w => setHas (words g) w) selectedWords)
                <> WORDS_PER_GROUP
                /\ arr_length
                     (filter (fun w => setHas (words g) w) selectedWords)
                   <> 3) groups
  end.
Proof.
  induction groups as [|g groups IH]; simpl; [constructor|].
  destruct (Z.eqb_spec
              (arr_length (filter (fun w => setHas (words g) w) selectedWords))
              WORDS_PER_GROUP) as [E4|N4].
  - repeat split; [now left|exact E4].
  - destruct (Z.eqb_spec
                (arr_length
                   (filter (fun w => setHas (words g) w) selectedWords)) 3)
      as [E3|N3].
    + exists g. split; [now left|exact E3].
    + destruct (checkGroupLoop selectedWords groups) as [[m|] [|]].
      * destruct IH as (C & Hin & Hc). discriminate C.
      * destruct IH as (_ & Hin & Hc). repeat split; [now right|exact Hc].
      * destruct IH as (m & Hin & Hc). exists m. split; [now right|exact Hc].
      * constructor; [split; assumption|exact IH].
Qed.

(** X12: what [checkGroup] answers. A match is a group of the list that
    contains every one of the 4 selected words, and is never reported as
    close; "close" means that some group of the list contains exactly 3 of
    the 4 selected entries; neither means that the selection has not 4
    entries or that no group contains 3 or 4 of them. *)
Theorem X12_checkGroup_answers :
  forall (selectedWords : list str) (groups : list Group),
    match checkGroup selectedWords groups with
    | (Some g, close) =>
        close = false /\ In g groups
        /\ arr_length selectedWords = 4
        /\ (forall w, In w selectedWords -> In w (words g))
    | (None, true) =>
        arr_length selectedWords = 4
        /\ exists g, In g groups
             /\ arr_length
                  (filter (fun w => setHas (words g) w) selectedWords) = 3
    | (None, false) =>
        arr_length selectedWords <> 4
        \/ Forall (fun g =>
                     arr_length
                       (filter (fun w => setHas (words g) w) selectedWords)
                     <> 4
                     /\ arr_length
                          (filter (fun w => setHas (words g) w) selectedWords)
                        <> 3) groups
    end.
Proof.
  intros sel groups. unfold checkGroup.
  destruct (Z.eqb_spec (arr_length sel) WORDS_PER_GROUP) as [E|N]; simpl.
  - pose proof (checkGroupLoop_spec sel groups) as H.
    destruct (checkGroupLoop sel groups) as [[g|] [|]].
    + destruct H as (C & _). discriminate C.
    + destruct H as (_ & Hin & Hc). repeat split; try assumption.
      intros w Hw. apply includesStr_In.
      apply (filter_all (fun w => setHas (words g) w) sel); [|exact Hw].
      unfold arr_length, WORDS_PER_GROUP in *. lia.
    + split; assumption.
    + now right.
  - now left.
Qed.




Lemma wrongAttempts_snoc (l : list Attempt) (a : Attempt) :
  arr_length (filter (fun a => negb (attempt_correct a)) (l ++ [a]))
  = arr_length (filter (fun a => negb (attempt_correct a)) l)
    + (if attempt_correct a then 0 else 1).
Proof.
  rewrite filter_app. unfold arr_length. rewrite length_app. simpl.
  destruct (attempt_correct a); simpl; lia.
Qed.

Lemma numSub_safe (n : Z) :
  isSafeInteger n = true -> numSub n 1 = n - 1.
Proof.
  unfold isSafeInteger, numSub, roundToDouble. cbv zeta.
  rewrite andb_true_iff, !Z.leb_le. intros [H1 H2].
  destruct (Z.leb_spec (Z.abs (n - 1)) 9007199254740992); [reflexivity|lia].
Qed.

(** X14: the bookkeeping of [processGuess]. A state whose selection has
    not 4 entries is returned as it is. Otherwise exactly one attempt is
    appended, holding the selection; and, for a count of mistakes that is
    a safe integer, the mistakes that remain plus the attempts recorded as
    wrong stay the same: each wrong guess costs one mistake, a right guess
    none. *)
Theorem X14_processGuess_bookkeeping :
  forall (state : GameState) (groups : list Group),
    let state' := processGuess state groups in
    (isSafeInteger (mistakesRemaining state) = true ->
     mistakesRemaining state' + wrongAttempts state'
     = mistakesRemaining state + wrongAttempts state)
    /\ (if arr_length (selectedWords state) =? WORDS_PER_GROUP
        then exists correct : bool,
               attempts state'
               = attempts state ++ [mkAttempt (selectedWords state) correct]
        else state' = state).
Proof.
  intros state groups state'. unfold state', processGuess, wrongAttempts.
  destruct (arr_length (selectedWords state) =? WORDS_PER_GROUP); simpl;
    [|split; reflexivity].
  destruct (checkGroup _ _) as [[m|] close]; cbn [mistakesRemaining attempts];
    rewrite wrongAttempts_snoc; cbn [attempt_correct]; split; eauto.
  - intros _. lia.
  - intros S. rewrite (numSub_safe _ S). lia.
Qed.

(** A state with 4 mistakes left and a wrong guess. *)
Lemma X14_processGuess_bookkeeping_witness :
  let state := mkGameState [] [] [lit "A"; lit "B"; lit "C"; lit "X"] 4
                           false false [] in
  let groups := [mkGroup (lit "G") [lit "A"; lit "B"; lit "C"; lit "D"] easy] in
  mistakesRemaining (processGuess state groups)
  + wrongAttempts (processGuess state groups)
  = mistakesRemaining state + wrongAttempts state.
Proof.
  apply (proj1 (X14_processGuess_bookkeeping
                  (mkGameState [] [] [lit "A"; lit "B"; lit "C"; lit "X"] 4
                               false false [])
                  [mkGroup (lit "G") [lit "A"; lit "B"; lit "C"; lit "D"]
                           easy])).
  vm_compute. reflexivity.
Defined.

Lemma checkGroup_match (selectedWords : list str) (groups : list Group)
      (m : Group) (close : bool) :
  checkGroup selectedWords groups = (Some m, close) ->
  In m groups /\ (forall w, In w selectedWords -> In w (words m)).
Proof.
  unfold checkGroup.
  destruct (Z.eqb_spec (arr_length selectedWords) WORDS_PER_GROUP) as [E|N];
    simpl; [|discriminate].
  pose proof (checkGroupLoop_spec selectedWords groups) as H.
  intros R. rewrite R in H. destruct H as (_ & Hin & Hc).
  split; [exact Hin|].
  intros w Hw. apply includesStr_In.
  apply (filter_all (fun w => setHas (words m) w) selectedWords); [|exact Hw].
  unfold arr_length in *. lia.
Qed.

(** X15: a right guess. When [processGuess] finds a match it appends the
    matched group to the solved ones, empties the selection, keeps the
    mistakes and takes the selected words out of the remaining ones. The
    matched group is a group of the board, contains every selected word,
    and its name is none of the names solved before: solved groups with
    distinct names keep distinct names. The game is won exactly when it is
    then complete. *)
Theorem X15_processGuess_right_guess :
  forall (state : GameState) (groups : list Group) (m : Group) (close : bool),
    arr_length (selectedWords state) = WORDS_PER_GROUP ->
    checkGroup (selectedWords state)
      (filter (fun g => negb (setHas (map name (solvedGroups state)) (name g)))
              groups)
    = (Some m, close) ->
    let state' := processGuess state groups in
    solvedGroups state' = solvedGroups state ++ [m]
    /\ In m groups
    /\ (forall w, In w (selectedWords state) -> In w (words m))
    /\ ~ In (name m) (map name (solvedGroups state))
    /\ (NoDup (map name (solvedGroups state)) ->
        NoDup (map name (solvedGroups state')))
    /\ selectedWords state' = []
    /\ mistakesRemaining state' = mistakesRemaining state
    /\ (forall w, In w (remainingWords state')
                  <-> In w (remainingWords state)
                      /\ ~ In w (selectedWords state))
    /\ won state' = isComplete state'
    /\ (isComplete state' = true
        <-> arr_length (solvedGroups state) + 1 = arr_length groups).
Proof.
  intros state groups m close H4 Hc state'.
  destruct (checkGroup_match _ _ _ _ Hc) as [Hin Hw].
  apply filter_In in Hin. destruct Hin as [Hin Hname].
  apply negb_true_iff in Hname.
  assert (Hnew : ~ In (name m) (map name (solvedGroups state))).
  { intros H. apply includesStr_In in H. unfold setHas in Hname. congruence. }
  unfold state', processGuess.
  rewrite (proj2 (Z.eqb_eq _ _) H4). simpl. rewrite Hc. simpl.
  repeat split; try assumption.
  - intros Hnd. rewrite map_app. simpl.
    apply NoDup_app; [exact Hnd|repeat constructor; intros []|].
    intros x Hx [<-|[]]. contradiction.
  - apply filter_In in H. tauto.
  - apply filter_In in H. destruct H as [_ H]. apply negb_true_iff in H.
    intros C. apply includesStr_In in C. congruence.
  - intros [H1 H2]. apply filter_In. split; [exact H1|].
    apply negb_true_iff. destruct (includesStr _ w) eqn:E; [|reflexivity].
    apply includesStr_In in E. contradiction.
  - intros H. apply Z.eqb_eq in H. unfold arr_length in *.
    rewrite length_app in H. simpl in H. lia.
  - intros H. apply Z.eqb_eq. unfold arr_length in *.
    rewrite length_app. simpl. lia.
Qed.

(** Four words of the only group are selected. *)
Lemma X15_processGuess_right_guess_witness :
  let g := mkGroup (lit "G") [lit "A"; lit "B"; lit "C"; lit "D"] easy in
  let state := mkGameState [lit "A"; lit "B"; lit "C"; lit "D"] []
                           [lit "A"; lit "B"; lit "C"; lit "D"] 4
                           false false [] in
  let state' := processGuess state [g] in
  solvedGroups state' = solvedGroups state ++ [g]
  /\ In g [g]
  /\ (forall w, In w (selectedWords state) -> In w (words g))
  /\ ~ In (name g) (map name (solvedGroups state))
  /\ (NoDup (map name (solvedGroups state)) ->
      NoDup (map name (solvedGroups state')))
  /\ selectedWords state' = []
  /\ mistakesRemaining state' = mistakesRemaining state
  /\ (forall w, In w (remainingWords state')
                <-> In w (remainingWords state)
                    /\ ~ In w (selectedWords state))
  /\ won state' = isComplete state'
  /\ (isComplete state' = true
      <-> arr_length (solvedGroups state) + 1 = arr_length [g]).
Proof.
  apply (X15_processGuess_right_guess
           (mkGameState [lit "A"; lit "B"; lit "C"; lit "D"] []
                        [lit "A"; lit "B"; lit "C"; lit "D"] 4
                        false false [])
           [mkGroup (lit "G") [lit "A"; lit "B"; lit "C"; lit "D"] easy]
           (mkGroup (lit "G") [lit "A"; lit "B"; lit "C"; lit "D"] easy)
           false).
  - vm_compute. reflexivity.
  - vm_compute. reflexivity.
Defined.







